(** * passwordgenerator: the random engine, the generator and the strength scorer

    A shallow embedding of [src/utils/passwordGenerator.js].

    - JavaScript strings are sequences of UTF-16 code units.
    - Arrays are mutable objects: they live in a store indexed by locations,
      so that copying an array ([[...array]]) and mutating the copy can be
      told apart from mutating the original.
    - [crypto.getRandomValues] is an unbounded stream of words; every draw
      consumes the head of the stream. *)

From stdpp Require Import base numbers option list gmap strings.
From Stdlib Require Import ZArith Ascii Lia.

Local Open Scope Z_scope.

(** ** Strings *)

(** A JavaScript string: a list of UTF-16 code units. *)
Abbreviation codeunit := N (only parsing).
Abbreviation jsstring := (list N) (only parsing).

(** The code units of a string literal of the source (all of them ASCII). *)
Definition units (s : string) : jsstring :=
  N_of_ascii <$> String.list_ascii_of_string s.

(** [s.length] *)
Definition strlen (s : jsstring) : Z := Z.of_nat (length s).

(** ** Array cells *)

(** Reading an array outside its bounds yields [undefined], and writing past
    its end pads the gap with holes that read as [undefined]: the type of
    the cells of an array has such a value. *)
Class HasUndefined (A : Type) := undefined : A.

(** What the generator keeps in its arrays: the result of [str[k]], a string
    (of one code unit) or [undefined]. *)
Inductive jsval :=
  | Undefined
  | Str (s : jsstring).

#[global] Instance jsval_undefined : HasUndefined jsval := Undefined.

(** [str[k]] *)
Definition char_at (s : jsstring) (k : Z) : jsval :=
  if k <? 0 then Undefined
  else match s !! Z.to_nat k with
       | Some c => Str [c]
       | None => Undefined
       end.

(** How [Array.prototype.join] prints a cell: [undefined] as the empty
    string. *)
Definition to_str (v : jsval) : jsstring :=
  match v with
  | Undefined => []
  | Str s => s
  end.

(** [cells.join('')] *)
Definition join (cells : list jsval) : jsstring :=
  concat (to_str <$> cells).

(** ** The store and the random source *)

Abbreviation loc := nat (only parsing).

Record state (A : Type) := State {
  arrays : gmap nat (list A);   (* the arrays allocated so far *)
  entropy : nat → Z             (* the words the secure source will deliver *)
}.
Arguments State {A} _ _.
Arguments arrays {A} _.
Arguments entropy {A} _.

(** Computations that read and update the store and consume entropy. *)
Definition M (A R : Type) : Type := state A → R * state A.

#[global] Instance M_ret {A} : MRet (M A) := λ R x s, (x, s).
#[global] Instance M_bind {A} : MBind (M A) :=
  λ R S f m s, let '(x, s') := m s in f x s'.

(** [for (let i = start; i < start + count; i++) body(i)], for a natural
    number [count] of rounds *)
Fixpoint for_up {A} (i : Z) (count : nat) (body : Z → M A unit) : M A unit :=
  match count with
  | O => mret ()
  | S count' => body i;; for_up (i + 1) count' body
  end.

(** [for (let i = n; i > 0; i--) body(i)], for a natural number [n] *)
Fixpoint for_down {A} (n : nat) (body : Z → M A unit) : M A unit :=
  match n with
  | O => mret ()
  | S n' => body (Z.of_nat n);; for_down n' body
  end.

(** *** Arrays *)

Section arrays.
Context {A : Type} `{!HasUndefined A}.

(** An array literal or a spread: a new object, at a location no array
    occupies yet. *)
Definition array_new (xs : list A) : M A loc := λ s,
  let l := fresh (dom (arrays s)) in
  (l, State (<[l := xs]> (arrays s)) (entropy s)).

(** The elements of the array at [l], in order. *)
Definition array_read (l : loc) : M A (list A) := λ s,
  (default [] (arrays s !! l), s).

(** [arr.length] *)
Definition array_length (l : loc) : M A Z :=
  xs ← array_read l; mret (Z.of_nat (length xs)).

(** The value of [arr[i]] in the elements [xs]. *)
Definition elem (xs : list A) (i : Z) : A :=
  if i <? 0 then undefined else default undefined (xs !! Z.to_nat i).

(** The elements after [arr[i] = v]: in range the cell is overwritten,
    past the end the array grows, and a negative [i] names a property
    that is no element. *)
Definition store (i : Z) (v : A) (xs : list A) : list A :=
  if i <? 0 then xs
  else
    let n := Z.to_nat i in
    if bool_decide (n < length xs)%nat then <[n := v]> xs
    else xs ++ replicate (n - length xs)%nat undefined ++ [v].

(** [arr[i]] *)
Definition array_get (l : loc) (i : Z) : M A A :=
  xs ← array_read l; mret (elem xs i).

(** [arr[i] = v] *)
Definition array_set (l : loc) (i : Z) (v : A) : M A unit := λ s,
  ((), State (alter (store i v) l (arrays s)) (entropy s)).

(** [arr.push(v)] *)
Definition array_push (l : loc) (v : A) : M A unit := λ s,
  ((), State (alter (λ xs, xs ++ [v]) l (arrays s)) (entropy s)).
End arrays.

(** ** Random engine *)

(** What a [Uint32Array] cell holds of a word. *)
Definition uint32 (v : Z) : Z := v mod 2 ^ 32.

(** [const array = new Uint32Array(1); crypto.getRandomValues(array);
    array[0]]: the next word of the source. *)
Definition getRandomValues {A} : M A Z := λ s,
  (uint32 (entropy s 0%nat), State (arrays s) (λ n, entropy s (S n))).

(** [array[0] % max]. On integers [%] is the remainder that has the sign of
    the dividend. Dividing by zero, where JavaScript yields [NaN], does not
    happen below: [max] is the length of a non-empty string or [i + 1] for a
    positive [i]. *)
Definition getSecureRandomInt {A} (max : Z) : M A Z :=
  word ← getRandomValues;
  mret (Z.rem word max).

(** Fisher-Yates over a copy of [array]. *)
Definition secureShuffleArray {A} `{!HasUndefined A} (array : loc) : M A loc :=
  xs ← array_read array;
  shuffled ← array_new xs;
  len ← array_length shuffled;
  for_down (Z.to_nat (len - 1)) (λ i,
    j ← getSecureRandomInt (i + 1);
    (* [shuffled[i], shuffled[j]] = [shuffled[j], shuffled[i]] *)
    a ← array_get shuffled j;
    b ← array_get shuffled i;
    array_set shuffled i a;;
    array_set shuffled j b);;
  mret shuffled.

(** ** Password generator *)

Module CHAR_POOLS.
Definition uppercase : jsstring := units "ABCDEFGHIJKLMNOPQRSTUVWXYZ".
Definition lowercase : jsstring := units "abcdefghijklmnopqrstuvwxyz".
Definition numbers : jsstring := units "0123456789".
Definition symbols : jsstring := units "!@#$%^&*()_+-=[]{}|;:,.<>?".
End CHAR_POOLS.

(** The [options] object: every field may be left out. *)
Module Options.
Record t := mk {
  length : option Z;
  uppercase : option bool;
  lowercase : option bool;
  numbers : option bool;
  symbols : option bool
}.
(** [{}] *)
Definition empty : t := mk None None None None None.
End Options.

(** The five constants that the destructuring binds. *)
Module Config.
Record t := mk {
  length : Z;
  uppercase : bool;
  lowercase : bool;
  numbers : bool;
  symbols : bool
}.
End Config.

(** [function generatePassword(options = {})] and
    [const { length = 14, uppercase = true, lowercase = true, numbers = true,
    symbols = true } = options]: an argument or a field that is left out
    takes its default. *)
Definition destructure (arg : option Options.t) : Config.t :=
  let options := default Options.empty arg in
  Config.mk (default 14 (Options.length options))
            (default true (Options.uppercase options))
            (default true (Options.lowercase options))
            (default true (Options.numbers options))
            (default true (Options.symbols options)).

Definition generatePassword (arg : option Options.t) : M jsval jsstring :=
  let cfg := destructure arg in
  let pool : jsstring := [] in
  requiredChars ← array_new [];
  pool ← (if Config.uppercase cfg then
            let pool := pool ++ CHAR_POOLS.uppercase in
            k ← getSecureRandomInt (strlen CHAR_POOLS.uppercase);
            array_push requiredChars (char_at CHAR_POOLS.uppercase k);;
            mret pool
          else mret pool);
  pool ← (if Config.lowercase cfg then
            let pool := pool ++ CHAR_POOLS.lowercase in
            k ← getSecureRandomInt (strlen CHAR_POOLS.lowercase);
            array_push requiredChars (char_at CHAR_POOLS.lowercase k);;
            mret pool
          else mret pool);
  pool ← (if Config.numbers cfg then
            let pool := pool ++ CHAR_POOLS.numbers in
            k ← getSecureRandomInt (strlen CHAR_POOLS.numbers);
            array_push requiredChars (char_at CHAR_POOLS.numbers k);;
            mret pool
          else mret pool);
  pool ← (if Config.symbols cfg then
            let pool := pool ++ CHAR_POOLS.symbols in
            k ← getSecureRandomInt (strlen CHAR_POOLS.symbols);
            array_push requiredChars (char_at CHAR_POOLS.symbols k);;
            mret pool
          else mret pool);
  (* Return empty if no character types selected *)
  if bool_decide (pool = []) then mret []
  else
    (* Generate remaining characters *)
    required ← array_length requiredChars;
    let remainingLength := Z.max 0 (Config.length cfg - required) in
    spread ← array_read requiredChars;
    passwordChars ← array_new spread;
    for_up 0 (Z.to_nat remainingLength) (λ _,
      randomIndex ← getSecureRandomInt (strlen pool);
      array_push passwordChars (char_at pool randomIndex));;
    (* Shuffle to randomize position of required characters *)
    shuffled ← secureShuffleArray passwordChars;
    cells ← array_read shuffled;
    mret (join cells).

(** ** Strength scorer *)

Record Strength := mkStrength {
  score : Z;
  label : string;
  color : string
}.

(** The code unit of an ASCII character. *)
Definition code (a : ascii) : codeunit := N_of_ascii a.

(** A range [lo-hi] of a character class. *)
Definition range (lo hi : ascii) (c : codeunit) : bool :=
  ((code lo <=? c) && (c <=? code hi))%N.

(** [/[class]/.test(s)]: some code unit of [s] is in the class. *)
Definition regex_test (class : codeunit → bool) (s : jsstring) : bool :=
  existsb class s.

(** [/[a-z]/], [/[A-Z]/], [/[0-9]/] and [/[^a-zA-Z0-9]/] *)
Definition re_lower : codeunit → bool := range "a" "z".
Definition re_upper : codeunit → bool := range "A" "Z".
Definition re_digit : codeunit → bool := range "0" "9".
Definition re_other (c : codeunit) : bool :=
  negb (range "a" "z" c || range "A" "Z" c || range "0" "9" c).

(** Length scoring and character variety scoring: the running [score]. *)
Definition bucketScore (password : jsstring) : Z :=
  let score := 0 in
  let score := if 8 <=? strlen password then score + 15 else score in
  let score := if 12 <=? strlen password then score + 15 else score in
  let score := if 16 <=? strlen password then score + 10 else score in
  let score := if 24 <=? strlen password then score + 10 else score in
  let score := if regex_test re_lower password then score + 15 else score in
  let score := if regex_test re_upper password then score + 15 else score in
  let score := if regex_test re_digit password then score + 10 else score in
  let score := if regex_test re_other password then score + 10 else score in
  score.

(** Determine label and color. *)
Definition grade (score : Z) : string * string :=
  if 75 <=? score then ("Strong", "#16a34a")%string
  else if 50 <=? score then ("Medium", "#ca8a04")%string
  else ("Weak", "#dc2626")%string.

Definition calculateStrength (password : jsstring) : Strength :=
  match password with
  | [] => (* !password *) mkStrength 0 "None" "#9ca3af"
  | _ =>
      let score := bucketScore password in
      let '(label, color) := grade score in
      mkStrength score label color
  end.

(** * Vocabulary of the properties *)

(** ** Password generator *)

(** The pools of the enabled classes, in the order in which the generator
    visits them. *)
Definition enabledPools (cfg : Config.t) : list jsstring :=
  (if Config.uppercase cfg then [CHAR_POOLS.uppercase] else []) ++
  (if Config.lowercase cfg then [CHAR_POOLS.lowercase] else []) ++
  (if Config.numbers cfg then [CHAR_POOLS.numbers] else []) ++
  (if Config.symbols cfg then [CHAR_POOLS.symbols] else []).

(** [count(enabledClasses)] *)
Definition enabledCount (cfg : Config.t) : Z :=
  Z.of_nat (length (enabledPools cfg)).

(** The array cell that holds the one-character string [c]. *)
Definition cell (c : codeunit) : jsval := Str [c].

(** One of the four [if (class) { pool += ...; requiredChars.push(...) }]
    statements. *)
Definition class_block (enabled : bool) (chars : jsstring)
    (requiredChars : loc) (pool : jsstring) : M jsval jsstring :=
  if enabled then
    let pool := pool ++ chars in
    k ← getSecureRandomInt (strlen chars);
    array_push requiredChars (char_at chars k);;
    mret pool
  else mret pool.

(** The statements after the early return. *)
Definition fill_and_shuffle (requiredChars : loc) (pool : jsstring)
    (len : Z) : M jsval jsstring :=
  required ← array_length requiredChars;
  let remainingLength := Z.max 0 (len - required) in
  spread ← array_read requiredChars;
  passwordChars ← array_new spread;
  for_up 0 (Z.to_nat remainingLength) (λ _,
    randomIndex ← getSecureRandomInt (strlen pool);
    array_push passwordChars (char_at pool randomIndex));;
  shuffled ← secureShuffleArray passwordChars;
  cells ← array_read shuffled;
  mret (join cells).

(** The options object with every field filled in: a field that was left
    out holds its default. *)
Definition with_defaults (o : Options.t) : Options.t :=
  Options.mk (Some (default 14 (Options.length o)))
             (Some (default true (Options.uppercase o)))
             (Some (default true (Options.lowercase o)))
             (Some (default true (Options.numbers o)))
             (Some (default true (Options.symbols o))).

(** ** Strength scorer *)

(** Every code unit below 128, in order. *)
Definition ascii_units : jsstring := N.of_nat <$> seq 0 128.

(** The table of the scoring rules: eight buckets, each worth its points
    when its condition holds, added up. The letters and digits are those of
    the generator's pools. *)
Definition table_score (password : jsstring) : Z :=
  (if bool_decide (8 ≤ strlen password) then 15 else 0) +
  (if bool_decide (12 ≤ strlen password) then 15 else 0) +
  (if bool_decide (16 ≤ strlen password) then 10 else 0) +
  (if bool_decide (24 ≤ strlen password) then 10 else 0) +
  (if bool_decide (Exists (λ c, c ∈ CHAR_POOLS.lowercase) password)
   then 15 else 0) +
  (if bool_decide (Exists (λ c, c ∈ CHAR_POOLS.uppercase) password)
   then 15 else 0) +
  (if bool_decide (Exists (λ c, c ∈ CHAR_POOLS.numbers) password)
   then 10 else 0) +
  (if bool_decide
        (Exists (λ c, c ∉ CHAR_POOLS.uppercase ++ CHAR_POOLS.lowercase
                            ++ CHAR_POOLS.numbers) password)
   then 10 else 0).

(** ** Sample runs *)

(** A source that delivers 0, 7919, 15838, ... and a store without arrays. *)
Definition sample_state : state jsval := State ∅ (λ n, Z.of_nat n * 7919).

(** [{ length: 8, lowercase: false }], [{ length: 2, symbols: false }] and
    [{ length: 20, uppercase: false, lowercase: false, numbers: false,
    symbols: false }] *)
Definition sample_long : option Options.t :=
  Some (Options.mk (Some 8) None (Some false) None None).
Definition sample_short : option Options.t :=
  Some (Options.mk (Some 2) None None None (Some false)).
Definition sample_none : option Options.t :=
  Some (Options.mk (Some 20) (Some false) (Some false) (Some false) (Some false)).

(** A store with one array of three cells; the source delivers 1, 2, 3, ... *)
Definition shuffle_sample : state jsval :=
  State {[ 5%nat := [cell 97%N; cell 98%N; cell 99%N] ]} (λ n, Z.of_nat n + 1).

(** ** Scoring a generated password *)

(** The four tests of the scorer on one code unit: lowercase, uppercase,
    digit, other. *)
Definition classes (c : codeunit) : bool * bool * bool * bool :=
  (re_lower c, re_upper c, re_digit c, re_other c).

(** The points of the four length buckets for a length of [n]. *)
Definition lengthPoints (n : Z) : Z :=
  (if 8 <=? n then 15 else 0) + (if 12 <=? n then 15 else 0) +
  (if 16 <=? n then 10 else 0) + (if 24 <=? n then 10 else 0).

(** The points of the variety buckets of the enabled classes. *)
Definition classPoints (cfg : Config.t) : Z :=
  (if Config.lowercase cfg then 15 else 0) +
  (if Config.uppercase cfg then 15 else 0) +
  (if Config.numbers cfg then 10 else 0) +
  (if Config.symbols cfg then 10 else 0).

(** ** The loop of the shuffle *)

(** One round of the loop of [secureShuffleArray], for the loop variable
    [i]. *)
Definition swap_round {A} `{!HasUndefined A} (shuffled : loc) (i : Z) : M A unit :=
  j ← getSecureRandomInt (i + 1);
  a ← array_get shuffled j;
  b ← array_get shuffled i;
  array_set shuffled i a;;
  array_set shuffled j b.

(** The random source that delivers [word] first and then what [e]
    delivers. *)
Definition entropy_cons (word : Z) (e : nat → Z) : nat → Z :=
  λ n, match n with O => word | S n' => e n' end.

(** ** The distribution of the random integers *)

(** What [getSecureRandomInt(max)] returns when the source delivers
    [word]. *)
Definition draw (max word : Z) : Z :=
  (getSecureRandomInt max (State (A := jsval) ∅ (λ _, word))).1.

(** The 32-bit words for which [getSecureRandomInt(max)] returns [r], in
    increasing order. *)
Definition words_for (max r : Z) : list Z :=
  filter (λ word, draw max word = r) (seqZ 0 (2 ^ 32)).

(** * The application (App.jsx) *)

(** The state that [App] keeps in [config], the functions that update it and
    [regenerate], which fills [password] and [strength] from it. *)
Module App.

(** What [parseInt(e.target.value, 10)] can return: [NaN], an integer, or an
    infinity when the digits exceed the range of a number. *)
Inductive number :=
| NaN
| Int (z : Z)
| Infinity
| NegInfinity.

(** [Math.max(8, value)] and [Math.min(32, value)] *)
Definition max8 (value : number) : number :=
  match value with
  | NaN => NaN
  | Int z => Int (Z.max 8 z)
  | Infinity => Infinity
  | NegInfinity => Int 8
  end.

Definition min32 (value : number) : number :=
  match value with
  | NaN => NaN
  | Int z => Int (Z.min 32 z)
  | Infinity => Int 32
  | NegInfinity => NegInfinity
  end.

(** [useState({ length: 14, uppercase: true, lowercase: true, numbers: true,
    symbols: true })] *)
Definition initialConfig : Config.t := Config.mk 14 true true true true.

(** The object [config] as the argument of [generatePassword]: it has all
    five fields. *)
Definition options (config : Config.t) : option Options.t :=
  Some (Options.mk (Some (Config.length config))
                   (Some (Config.uppercase config))
                   (Some (Config.lowercase config))
                   (Some (Config.numbers config))
                   (Some (Config.symbols config))).

(** [config.uppercase || config.lowercase || config.numbers ||
    config.symbols] *)
Definition hasValidConfig (config : Config.t) : bool :=
  Config.uppercase config || Config.lowercase config ||
  Config.numbers config || Config.symbols config.

(** The body of [regenerate]: the values it passes to [setPassword] and
    [setStrength]. *)
Definition regenerate (config : Config.t) : M jsval (jsstring * Strength) :=
  if negb (hasValidConfig config) then
    mret ([], mkStrength 0 "None" "#9ca3af")
  else
    newPassword ← generatePassword (options config);
    mret (newPassword, calculateStrength newPassword).

(** [prev => ({ ...prev, length: Math.min(32, Math.max(8, prev.length +
    delta)) })] *)
Definition updateLength (delta : Z) (prev : Config.t) : Config.t :=
  Config.mk (Z.min 32 (Z.max 8 (Config.length prev + delta)))
            (Config.uppercase prev) (Config.lowercase prev)
            (Config.numbers prev) (Config.symbols prev).

(** [handleLengthInput], from the parsed [value] on: nothing is set for
    [NaN]. *)
Definition handleLengthInput (value : number) (prev : Config.t) : Config.t :=
  match value with
  | NaN => prev
  | _ =>
      match min32 (max8 value) with
      | Int length =>
          Config.mk length
                    (Config.uppercase prev) (Config.lowercase prev)
                    (Config.numbers prev) (Config.symbols prev)
      | _ => prev
      end
  end.

(** The keys that the four toggle buttons pass. *)
Inductive key := uppercase | lowercase | numbers | symbols.

(** [prev => ({ ...prev, [key]: !prev[key] })] *)
Definition toggleOption (k : key) (prev : Config.t) : Config.t :=
  match k with
  | uppercase =>
      Config.mk (Config.length prev) (negb (Config.uppercase prev))
                (Config.lowercase prev) (Config.numbers prev)
                (Config.symbols prev)
  | lowercase =>
      Config.mk (Config.length prev) (Config.uppercase prev)
                (negb (Config.lowercase prev)) (Config.numbers prev)
                (Config.symbols prev)
  | numbers =>
      Config.mk (Config.length prev) (Config.uppercase prev)
                (Config.lowercase prev) (negb (Config.numbers prev))
                (Config.symbols prev)
  | symbols =>
      Config.mk (Config.length prev) (Config.uppercase prev)
                (Config.lowercase prev) (Config.numbers prev)
                (negb (Config.symbols prev))
  end.

(** What the user can do to [config]: press minus or plus, type a length,
    press a toggle. *)
Inductive action :=
| Decrease
| Increase
| TypeLength (value : number)
| Toggle (k : key).

Definition step (config : Config.t) (a : action) : Config.t :=
  match a with
  | Decrease => updateLength (-1) config
  | Increase => updateLength 1 config
  | TypeLength value => handleLengthInput value config
  | Toggle k => toggleOption k config
  end.

(** The configuration after a sequence of actions on the initial one. *)
Definition after (actions : list action) : Config.t :=
  foldl step initialConfig actions.

End App.

(** * Properties *)

(** ** Running a computation *)

Lemma run_bind {A R S} (m : M A R) (f : R → M A S) (s : state A) :
  (m ≫= f) s = f (m s).1 (m s).2.
Proof. unfold mbind, M_bind. by destruct (m s). Qed.

Lemma run_ret {A R} (x : R) (s : state A) : mret (M := M A) x s = (x, s).
Proof. done. Qed.

(** The loop rules: an invariant that every round keeps holds at the end. *)
Lemma for_down_inv {A} (I : state A → Prop) (body : Z → M A unit) n s :
  I s →
  (∀ i s', 0 < i ≤ Z.of_nat n → I s' → I (body i s').2) →
  I (for_down n body s).2.
Proof.
  revert s. induction n as [|n IH]; intros s Hs Hbody; [done|].
  cbn [for_down]. rewrite run_bind. apply IH.
  - apply Hbody; [lia|done].
  - intros i s' Hi. apply Hbody. lia.
Qed.

Lemma for_up_inv {A} (I : nat → state A → Prop) (body : Z → M A unit)
    start count s :
  I 0%nat s →
  (∀ k s', (k < count)%nat → I k s' → I (S k) (body (start + Z.of_nat k) s').2) →
  I count (for_up start count body s).2.
Proof.
  revert I start s. induction count as [|count IH]; intros I start s Hs Hbody;
    [done|].
  cbn [for_up]. rewrite run_bind.
  apply (IH (λ k, I (S k))).
  - specialize (Hbody 0%nat s). rewrite Z.add_0_r in Hbody.
    apply Hbody; [lia|done].
  - intros k s' Hk HI.
    replace (start + 1 + Z.of_nat k) with (start + Z.of_nat (S k)) by lia.
    apply Hbody; [lia|done].
Qed.

(** ** Arrays as lists *)

Section array_facts.
Context {A : Type} `{!HasUndefined A}.
Implicit Types (xs ys : list A) (s : state A).

Lemma elem_lookup xs (n : nat) x :
  xs !! n = Some x → elem xs (Z.of_nat n) = x.
Proof.
  intros Hx. unfold elem.
  destruct (Z.ltb_spec (Z.of_nat n) 0); [lia|].
  by rewrite Nat2Z.id, Hx.
Qed.

Lemma store_insert xs (n : nat) v :
  (n < length xs)%nat → store (Z.of_nat n) v xs = <[n := v]> xs.
Proof.
  intros Hn. unfold store.
  destruct (Z.ltb_spec (Z.of_nat n) 0); [lia|].
  rewrite Nat2Z.id. by rewrite bool_decide_eq_true_2.
Qed.

(** Overwriting one cell with the content of another. *)
Lemma insert_cons_perm xs (j : nat) x y :
  xs !! j = Some y → y :: <[j := x]> xs ≡ₚ x :: xs.
Proof.
  revert j. induction xs as [|z xs IH]; intros [|j] Hj; simplify_eq/=.
  - apply perm_swap.
  - rewrite (perm_swap z y). rewrite (IH _ Hj). apply perm_swap.
Qed.

(** Exchanging two cells permutes the array. *)
Lemma insert_swap_perm xs (i j : nat) x y :
  xs !! i = Some x → xs !! j = Some y →
  <[j := x]> (<[i := y]> xs) ≡ₚ xs.
Proof.
  revert i j. induction xs as [|z xs IH]; intros [|i] [|j] Hi Hj;
    simplify_eq/=.
  - done.
  - by apply insert_cons_perm.
  - by apply insert_cons_perm.
  - f_equiv. by apply IH.
Qed.

Lemma swap_perm xs (i j : nat) :
  (i < length xs)%nat → (j < length xs)%nat →
  store (Z.of_nat j) (elem xs (Z.of_nat i))
    (store (Z.of_nat i) (elem xs (Z.of_nat j)) xs) ≡ₚ xs.
Proof.
  intros Hi Hj.
  destruct (lookup_lt_is_Some_2 xs i Hi) as [x Hx].
  destruct (lookup_lt_is_Some_2 xs j Hj) as [y Hy].
  rewrite (elem_lookup _ _ _ Hx), (elem_lookup _ _ _ Hy).
  rewrite (store_insert xs i) by done.
  rewrite store_insert by (by rewrite length_insert).
  by apply insert_swap_perm.
Qed.
End array_facts.

(** ** Random engine *)

Lemma uint32_range v : 0 ≤ uint32 v < 2 ^ 32.
Proof. unfold uint32. apply Z.mod_pos_bound. lia. Qed.

Lemma uint32_id v : 0 ≤ v < 2 ^ 32 → uint32 v = v.
Proof. intros Hv. unfold uint32. by apply Z.mod_small. Qed.

Lemma getSecureRandomInt_run {A} max (s : state A) :
  getSecureRandomInt max s =
    (Z.rem (uint32 (entropy s 0%nat)) max,
     State (arrays s) (λ n, entropy s (S n))).
Proof. done. Qed.

Lemma rem_uint32_range v max : 0 < max → 0 ≤ Z.rem (uint32 v) max < max.
Proof.
  intros Hmax. pose proof (uint32_range v). apply Z.rem_bound_pos; lia.
Qed.

(** C8. For a positive [max] and any 32-bit word that the source delivers,
    [getSecureRandomInt(max)] is the word reduced modulo [max], an integer
    from 0 up to [max - 1]. *)
Theorem getSecureRandomInt_range {A} (max word : Z) (s : state A) :
  0 < max →
  0 ≤ word < 2 ^ 32 →
  entropy s 0%nat = word →
  (getSecureRandomInt max s).1 = word mod max ∧
  0 ≤ (getSecureRandomInt max s).1 < max.
Proof.
  intros Hmax Hword Hs.
  rewrite getSecureRandomInt_run. cbn [fst].
  rewrite Hs, (uint32_id _ Hword).
  rewrite Z.rem_mod_nonneg by lia.
  split; [done|]. apply Z.mod_pos_bound. lia.
Qed.

(** The largest word, reduced for the 26 letters. *)
Lemma getSecureRandomInt_range_witness :
  (getSecureRandomInt 26 (State (A := jsval) ∅ (λ _, 4294967295))).1
    = 4294967295 mod 26 ∧
  0 ≤ (getSecureRandomInt 26 (State (A := jsval) ∅ (λ _, 4294967295))).1 < 26.
Proof.
  apply (getSecureRandomInt_range 26 4294967295); [lia|lia|reflexivity].
Defined.

Section array_runs.
Context {A : Type} `{!HasUndefined A}.
Implicit Types (xs : list A) (s : state A).

Lemma array_read_run (l : loc) s :
  array_read l s = (default [] (arrays s !! l), s).
Proof. done. Qed.

Lemma array_new_run xs s :
  array_new xs s =
    (fresh (dom (arrays s)),
     State (<[fresh (dom (arrays s)) := xs]> (arrays s)) (entropy s)).
Proof. done. Qed.

Lemma array_length_run (l : loc) s :
  array_length l s = (Z.of_nat (length (default [] (arrays s !! l))), s).
Proof. done. Qed.

Lemma array_push_run (l : loc) v s :
  array_push l v s =
    ((), State (alter (λ xs, xs ++ [v]) l (arrays s)) (entropy s)).
Proof. done. Qed.
End array_runs.

Section shuffle.
Context {A : Type} `{!HasUndefined A}.
Implicit Types (xs ys : list A) (s : state A).

(** One round of the loop exchanges two cells of the copy and touches no
    other array. *)
Lemma shuffle_round (shuffled : loc) i s ys :
  arrays s !! shuffled = Some ys →
  0 < i < Z.of_nat (length ys) →
  ∃ ys', ys' ≡ₚ ys ∧
    arrays
      ((j ← getSecureRandomInt (i + 1);
        a ← array_get shuffled j;
        b ← array_get shuffled i;
        array_set shuffled i a;;
        array_set shuffled j b) s).2 = <[shuffled := ys']> (arrays s).
Proof.
  intros Hys Hi.
  rewrite run_bind, getSecureRandomInt_run. cbn [fst snd].
  set (j := Z.rem _ _).
  assert (0 ≤ j < i + 1) as Hj by (apply rem_uint32_range; lia).
  unfold array_get, array_read, array_set. rewrite !run_bind. cbn.
  rewrite Hys. cbn.
  exists (store j (elem ys i) (store i (elem ys j) ys)). split.
  - rewrite <- (Z2Nat.id i), <- (Z2Nat.id j) by lia.
    apply swap_perm; lia.
  - apply map_eq. intros l. rewrite !lookup_alter, lookup_insert.
    repeat case_decide; simplify_eq; by rewrite ?Hys.
Qed.

(** The shuffle allocates one array, a permutation of the input, and
    leaves every array that existed before as it was. *)
Lemma shuffle_spec (array : loc) xs s :
  arrays s !! array = Some xs →
  ∃ ys s', ys ≡ₚ xs ∧
    secureShuffleArray array s = (fresh (dom (arrays s)), s') ∧
    arrays s' = <[fresh (dom (arrays s)) := ys]> (arrays s).
Proof.
  intros Hxs. unfold secureShuffleArray.
  rewrite run_bind, array_read_run. cbn [fst snd]. rewrite Hxs.
  cbn [default]; unfold id. rewrite run_bind, array_new_run. cbn [fst snd].
  set (shuffled := fresh (dom (arrays s))).
  set (s1 := State _ _).
  assert (arrays s1 !! shuffled = Some xs) as Hs1 by apply lookup_insert_eq.
  rewrite run_bind, array_length_run. cbn [fst snd]. rewrite Hs1.
  cbn [default]; unfold id. rewrite run_bind.
  match goal with |- context [for_down ?n ?body s1] =>
    destruct (for_down_inv
      (λ s', ∃ ys, ys ≡ₚ xs ∧ arrays s' = <[shuffled := ys]> (arrays s))
      body n s1) as (ys & Hperm & Hys)
  end.
  - exists xs. split; [done|]. subst s1. cbn. done.
  - intros i s' Hi (ys & Hperm & Hys).
    destruct (shuffle_round shuffled i s' ys) as (ys' & Hperm' & Hys').
    { rewrite Hys. apply lookup_insert_eq. }
    { rewrite (Permutation_length Hperm). lia. }
    exists ys'. split; [by rewrite Hperm'|].
    cbn beta. rewrite Hys', Hys. apply insert_insert_eq.
  - eexists ys, _. split_and!; [done|by rewrite run_ret|done].
Qed.
End shuffle.

(** C7. [secureShuffleArray] returns a new array that is a permutation of the
    input array (same elements, same multiplicities), whatever words the
    random source delivers, and the input array still holds its elements in
    their order afterwards. *)
Theorem secureShuffleArray_permutation {A} `{!HasUndefined A}
    (array : loc) (xs : list A) (s : state A) :
  arrays s !! array = Some xs →
  let shuffled := (secureShuffleArray array s).1 in
  let s' := (secureShuffleArray array s).2 in
  (∃ ys, arrays s' !! shuffled = Some ys ∧ ys ≡ₚ xs) ∧
  shuffled ≠ array ∧
  arrays s' !! array = Some xs.
Proof.
  intros Hxs. cbn zeta.
  destruct (shuffle_spec array xs s Hxs) as (ys & s' & Hperm & -> & Hs').
  cbn [fst snd]. rewrite Hs'.
  assert (fresh (dom (arrays s)) ≠ array) as Hne.
  { intros Heq. apply (is_fresh (dom (arrays s))).
    rewrite Heq. apply elem_of_dom. by exists xs. }
  split_and!.
  - exists ys. by rewrite lookup_insert_eq.
  - done.
  - by rewrite lookup_insert_ne.
Qed.

Lemma secureShuffleArray_permutation_witness :
  (∃ ys,
     arrays (secureShuffleArray 5%nat shuffle_sample).2
       !! (secureShuffleArray 5%nat shuffle_sample).1 = Some ys ∧
     ys ≡ₚ [cell 97%N; cell 98%N; cell 99%N]) ∧
  (secureShuffleArray 5%nat shuffle_sample).1 ≠ 5%nat ∧
  arrays (secureShuffleArray 5%nat shuffle_sample).2 !! 5%nat
    = Some [cell 97%N; cell 98%N; cell 99%N].
Proof.
  apply (secureShuffleArray_permutation 5%nat
           [cell 97%N; cell 98%N; cell 99%N] shuffle_sample).
  reflexivity.
Defined.

(** ** Password generator *)

Lemma join_cells (cs : jsstring) : join (cell <$> cs) = cs.
Proof.
  unfold join. induction cs as [|c cs IH]; [done|].
  cbn. by rewrite IH.
Qed.

Lemma join_perm (xs ys : list jsval) : xs ≡ₚ ys → join xs ≡ₚ join ys.
Proof.
  unfold join. induction 1 as [|x xs ys _ IH|x y xs|xs ys zs _ IH1 _ IH2]; cbn.
  - done.
  - by rewrite IH.
  - rewrite !(assoc_L (++)). f_equiv. apply Permutation_app_comm.
  - by rewrite IH1.
Qed.

(** An index drawn for a non-empty string selects one of its characters. *)
Lemma char_at_random (chars : jsstring) (word : Z) :
  chars ≠ [] →
  ∃ c, c ∈ chars ∧ char_at chars (Z.rem (uint32 word) (strlen chars)) = cell c.
Proof.
  intros Hne.
  assert (0 < strlen chars) as Hlen.
  { unfold strlen. destruct chars; [done|]. cbn [length]. lia. }
  pose proof (rem_uint32_range word _ Hlen) as Hk.
  set (k := Z.rem _ _) in *. unfold char_at.
  destruct (Z.ltb_spec k 0); [lia|].
  destruct (lookup_lt_is_Some_2 chars (Z.to_nat k)) as [c Hc].
  { unfold strlen in Hk. lia. }
  exists c. rewrite Hc. split; [|done].
  apply list_elem_of_lookup. by exists (Z.to_nat k).
Qed.

Lemma class_block_spec enabled chars (requiredChars : loc) pool s cs :
  chars ≠ [] →
  arrays s !! requiredChars = Some (cell <$> cs) →
  ∃ picked s',
    class_block enabled chars requiredChars pool s
      = (pool ++ concat (if enabled then [chars] else []), s') ∧
    arrays s' = <[requiredChars := cell <$> (cs ++ picked)]> (arrays s) ∧
    Forall2 (λ c p, c ∈ p) picked (if enabled then [chars] else []).
Proof.
  intros Hne Hcs. destruct enabled; cbn [class_block].
  - rewrite run_bind, getSecureRandomInt_run. cbn [fst snd].
    destruct (char_at_random chars (entropy s 0%nat) Hne) as (c & Hc & ->).
    rewrite run_bind, array_push_run. cbn [fst snd arrays].
    exists [c]. eexists. split_and!.
    + rewrite run_ret. cbn. by rewrite (right_id_L [] (++)).
    + cbn [arrays]. apply map_eq. intros l.
      rewrite lookup_alter, lookup_insert.
      case_decide; [|done]. simplify_eq. rewrite Hcs. cbn.
      by rewrite fmap_app.
    + by repeat constructor.
  - exists []. eexists. split_and!.
    + rewrite run_ret. cbn. by rewrite (right_id_L [] (++)).
    + rewrite (right_id_L [] (++)). by rewrite insert_id.
    + constructor.
Qed.

(** One round of the filling loop pushes a character of the pool. *)
Lemma fill_round (passwordChars : loc) pool (s : state jsval) cs :
  pool ≠ [] →
  arrays s !! passwordChars = Some (cell <$> cs) →
  ∃ c, c ∈ pool ∧
    arrays
      ((randomIndex ← getSecureRandomInt (strlen pool);
        array_push passwordChars (char_at pool randomIndex)) s).2
      = <[passwordChars := cell <$> (cs ++ [c])]> (arrays s).
Proof.
  intros Hne Hcs.
  rewrite run_bind, getSecureRandomInt_run. cbn [fst snd].
  destruct (char_at_random pool (entropy s 0%nat) Hne) as (c & Hc & ->).
  rewrite array_push_run. cbn [fst snd arrays].
  exists c. split; [done|].
  apply map_eq. intros l. rewrite lookup_alter, lookup_insert.
  case_decide; [|done]. simplify_eq. rewrite Hcs. cbn. by rewrite fmap_app.
Qed.

(** [generatePassword] is the sequence of its four class statements, the
    early return and the rest. *)
Lemma generatePassword_unfold arg :
  generatePassword arg =
    (requiredChars ← array_new [];
     pool ← class_block (Config.uppercase (destructure arg))
              CHAR_POOLS.uppercase requiredChars [];
     pool ← class_block (Config.lowercase (destructure arg))
              CHAR_POOLS.lowercase requiredChars pool;
     pool ← class_block (Config.numbers (destructure arg))
              CHAR_POOLS.numbers requiredChars pool;
     pool ← class_block (Config.symbols (destructure arg))
              CHAR_POOLS.symbols requiredChars pool;
     if bool_decide (pool = []) then mret []
     else fill_and_shuffle requiredChars pool
            (Config.length (destructure arg))).
Proof. reflexivity. Qed.

(** From the required characters to the result: the remaining characters
    come from the pool, and the result is a rearrangement of both. *)
Lemma fill_and_shuffle_spec (requiredChars : loc) pool len
    (s : state jsval) req :
  pool ≠ [] →
  arrays s !! requiredChars = Some (cell <$> req) →
  ∃ fill,
    Forall (λ c, c ∈ pool) fill ∧
    length fill = Z.to_nat (Z.max 0 (len - Z.of_nat (length req))) ∧
    (fill_and_shuffle requiredChars pool len s).1 ≡ₚ req ++ fill.
Proof.
  intros Hne Hreq. unfold fill_and_shuffle.
  rewrite run_bind, array_length_run. cbn [fst snd]. rewrite Hreq.
  cbn [default]; unfold id. rewrite length_fmap. cbn zeta.
  rewrite run_bind, array_read_run. cbn [fst snd]. rewrite Hreq.
  cbn [default]; unfold id. rewrite run_bind, array_new_run. cbn [fst snd].
  set (passwordChars := fresh (dom (arrays s))).
  set (s1 := State _ _).
  set (count := Z.to_nat _).
  rewrite run_bind.
  match goal with |- context [for_up 0 count ?body s1] =>
    destruct (for_up_inv
      (λ k s', ∃ fill, length fill = k ∧ Forall (λ c, c ∈ pool) fill ∧
         arrays s' = <[passwordChars := cell <$> (req ++ fill)]> (arrays s))
      body 0 count s1) as (fill & Hlen & Hfill & Hs2)
  end.
  - exists []. split_and!; [done|done|]. by rewrite (right_id_L [] (++)).
  - intros k s' _ (fill & Hlen & Hfill & Hs').
    destruct (fill_round passwordChars pool s' (req ++ fill) Hne)
      as (c & Hc & Hpush).
    { rewrite Hs'. apply lookup_insert_eq. }
    exists (fill ++ [c]). split_and!.
    + rewrite length_app. cbn. lia.
    + apply Forall_app. by repeat constructor.
    + cbn beta. rewrite Hpush, Hs', insert_insert_eq.
      by rewrite (assoc_L (++)).
  - set (s2 := (for_up _ _ _ _).2) in *.
    destruct (shuffle_spec passwordChars (cell <$> (req ++ fill)) s2)
      as (ys & s3 & Hperm & Hrun & Hs3).
    { rewrite Hs2. apply lookup_insert_eq. }
    exists fill. split_and!; [done|done|].
    rewrite run_bind, Hrun. cbn [fst snd].
    rewrite run_bind, array_read_run, run_ret. cbn [fst snd].
    rewrite Hs3, lookup_insert_eq. cbn [default]; unfold id.
    rewrite (join_perm _ _ Hperm). by rewrite join_cells.
Qed.

Lemma pools_nonempty :
  CHAR_POOLS.uppercase ≠ [] ∧ CHAR_POOLS.lowercase ≠ [] ∧
  CHAR_POOLS.numbers ≠ [] ∧ CHAR_POOLS.symbols ≠ [].
Proof. done. Qed.

Lemma enabledPools_concat_nil cfg :
  concat (enabledPools cfg) = [] → enabledPools cfg = [].
Proof. by destruct cfg as [? [] [] [] []]. Qed.

(** What [generatePassword] returns: nothing when no class is enabled, and
    otherwise a rearrangement of one character per enabled class followed by
    [max(0, length - count)] characters of the combined pool. *)
Lemma generatePassword_spec arg (s : state jsval) :
  let cfg := destructure arg in
  let password := (generatePassword arg s).1 in
  (enabledPools cfg = [] → password = []) ∧
  (enabledPools cfg ≠ [] →
   ∃ required fill,
     Forall2 (λ c p, c ∈ p) required (enabledPools cfg) ∧
     Forall (λ c, c ∈ concat (enabledPools cfg)) fill ∧
     length fill = Z.to_nat (Z.max 0 (Config.length cfg - enabledCount cfg)) ∧
     password ≡ₚ required ++ fill).
Proof.
  cbn zeta. rewrite generatePassword_unfold.
  destruct pools_nonempty as (HU & HL & HN & HS).
  set (cfg := destructure arg).
  rewrite run_bind, array_new_run. cbn [fst snd].
  set (requiredChars := fresh (dom (arrays s))). set (s0 := State _ _).
  assert (arrays s0 !! requiredChars = Some (cell <$> [])) as H0
    by apply lookup_insert_eq.
  destruct (class_block_spec (Config.uppercase cfg) _ _ [] _ _ HU H0)
    as (p1 & s1 & Hrun1 & Hs1 & Hp1).
  rewrite run_bind, Hrun1. cbn [fst snd].
  assert (arrays s1 !! requiredChars = Some (cell <$> ([] ++ p1))) as H1
    by (rewrite Hs1; apply lookup_insert_eq).
  destruct (class_block_spec (Config.lowercase cfg) _ _
              ([] ++ concat (if Config.uppercase cfg
                             then [CHAR_POOLS.uppercase] else []))
              _ _ HL H1)
    as (p2 & s2 & Hrun2 & Hs2 & Hp2).
  rewrite run_bind, Hrun2. cbn [fst snd].
  assert (arrays s2 !! requiredChars = Some (cell <$> (([] ++ p1) ++ p2)))
    as H2 by (rewrite Hs2; apply lookup_insert_eq).
  rewrite run_bind.
  match goal with |- context [class_block _ _ _ ?pool s2] =>
    destruct (class_block_spec (Config.numbers cfg) _ _ pool _ _ HN H2)
      as (p3 & s3 & Hrun3 & Hs3 & Hp3)
  end.
  rewrite Hrun3. cbn [fst snd].
  assert (arrays s3 !! requiredChars
          = Some (cell <$> ((([] ++ p1) ++ p2) ++ p3)))
    as H3 by (rewrite Hs3; apply lookup_insert_eq).
  rewrite run_bind.
  match goal with |- context [class_block _ _ _ ?pool s3] =>
    destruct (class_block_spec (Config.symbols cfg) _ _ pool _ _ HS H3)
      as (p4 & s4 & Hrun4 & Hs4 & Hp4)
  end.
  rewrite Hrun4. cbn [fst snd].
  assert (arrays s4 !! requiredChars
          = Some (cell <$> (((([] ++ p1) ++ p2) ++ p3) ++ p4)))
    as H4 by (rewrite Hs4; apply lookup_insert_eq).
  set (req := (((([] ++ p1) ++ p2) ++ p3) ++ p4)) in *.
  set (pool := (_ ++ _)).
  assert (pool = concat (enabledPools cfg)) as Hpool.
  { subst pool. unfold enabledPools. by rewrite !concat_app, !(assoc_L (++)). }
  assert (Forall2 (λ c p, c ∈ p) req (enabledPools cfg)) as Hreq.
  { subst req. unfold enabledPools. rewrite <- !(assoc_L (++)). cbn [app].
    by repeat apply Forall2_app. }
  split.
  - intros Hnil. rewrite bool_decide_eq_true_2; [done|].
    by rewrite Hpool, Hnil.
  - intros Hsome. rewrite bool_decide_eq_false_2.
    2:{ rewrite Hpool. intros Hnil. by apply Hsome, enabledPools_concat_nil. }
    destruct (fill_and_shuffle_spec requiredChars pool (Config.length cfg)
                s4 req) as (fill & Hfill & Hlen & Hperm); [|done|].
    { rewrite Hpool. intros Hnil. by apply Hsome, enabledPools_concat_nil. }
    exists req, fill. split_and!; [done| |  |done].
    + by rewrite <- Hpool.
    + rewrite Hlen. unfold enabledCount.
      by rewrite (Forall2_length _ _ _ Hreq).
Qed.

Lemma elem_of_concat {A} (x : A) (ls : list (list A)) :
  x ∈ concat ls ↔ ∃ l, l ∈ ls ∧ x ∈ l.
Proof.
  rewrite list_elem_of_In, in_concat.
  by setoid_rewrite list_elem_of_In.
Qed.

Lemma enabledCount_pos cfg : 1 ≤ enabledCount cfg → enabledPools cfg ≠ [].
Proof. unfold enabledCount. intros Hc Hnil. rewrite Hnil in Hc. cbn in Hc. lia. Qed.

Lemma strlen_perm (xs ys : jsstring) : xs ≡ₚ ys → strlen xs = strlen ys.
Proof. intros Hp. unfold strlen. by rewrite (Permutation_length Hp). Qed.

(** With a class enabled, whatever the requested length: how long the
    password is, that every enabled class is present in it, and that all of
    its characters come from enabled classes. *)
Lemma generatePassword_shape arg (s : state jsval) :
  let cfg := destructure arg in
  let password := (generatePassword arg s).1 in
  enabledPools cfg ≠ [] →
  strlen password
    = enabledCount cfg + Z.max 0 (Config.length cfg - enabledCount cfg) ∧
  (∀ p, p ∈ enabledPools cfg → ∃ c, c ∈ password ∧ c ∈ p) ∧
  (∀ c, c ∈ password → ∃ p, p ∈ enabledPools cfg ∧ c ∈ p).
Proof.
  intros cfg password Hsome.
  destruct (generatePassword_spec arg s) as [_ Hspec].
  destruct (Hspec Hsome) as (required & fill & Hreq & Hfill & Hlen & Hperm).
  fold cfg in Hreq, Hfill, Hlen. fold password in Hperm.
  split_and!.
  - rewrite (strlen_perm _ _ Hperm). unfold strlen.
    rewrite length_app, Hlen, (Forall2_length _ _ _ Hreq).
    unfold enabledCount. lia.
  - intros p Hp. apply list_elem_of_lookup in Hp as [i Hi].
    destruct (Forall2_lookup_r _ _ _ _ _ Hreq Hi) as (c & Hc & Hcp).
    exists c. split; [|done]. rewrite Hperm. apply elem_of_app. left.
    apply list_elem_of_lookup. by exists i.
  - intros c Hc. rewrite Hperm in Hc. apply elem_of_app in Hc as [Hc|Hc].
    + apply list_elem_of_lookup in Hc as [i Hi].
      destruct (Forall2_lookup_l _ _ _ _ _ Hreq Hi) as (p & Hp & Hcp).
      exists p. split; [|done]. apply list_elem_of_lookup. by exists i.
    + rewrite Forall_forall in Hfill. specialize (Hfill c Hc).
      apply elem_of_concat in Hfill as (p & Hp & Hcp). by exists p.
Qed.

(** C1. With at least one class enabled and a requested length of at least
    the number of enabled classes, the password has exactly the requested
    length, holds a character of every enabled class, and holds no character
    outside the pools of the enabled classes. *)
Theorem generatePassword_length_and_classes arg (s : state jsval) :
  let cfg := destructure arg in
  let password := (generatePassword arg s).1 in
  1 ≤ enabledCount cfg →
  enabledCount cfg ≤ Config.length cfg →
  strlen password = Config.length cfg ∧
  (∀ p, p ∈ enabledPools cfg → ∃ c, c ∈ password ∧ c ∈ p) ∧
  (∀ c, c ∈ password → ∃ p, p ∈ enabledPools cfg ∧ c ∈ p).
Proof.
  intros cfg password Hcount Hlen.
  destruct (generatePassword_shape arg s (enabledCount_pos _ Hcount))
    as (Hstr & Hcover & Hin).
  split_and!; [|done|done].
  fold cfg password in Hstr. lia.
Qed.

(** C2. With the four classes disabled the result is the empty string,
    whatever the requested length; the computation has no failing path. *)
Theorem generatePassword_no_class arg (s : state jsval) :
  let cfg := destructure arg in
  Config.uppercase cfg = false →
  Config.lowercase cfg = false →
  Config.numbers cfg = false →
  Config.symbols cfg = false →
  (generatePassword arg s).1 = [].
Proof.
  intros cfg HU HL HN HS.
  apply (generatePassword_spec arg s).
  fold cfg. unfold enabledPools. by rewrite HU, HL, HN, HS.
Qed.

(** C3. With at least one class enabled and a requested length below the
    number of enabled classes (zero and negative lengths too), the password
    is as long as there are enabled classes: it is a rearrangement of the
    required characters, one of each enabled class. *)
Theorem generatePassword_short_length arg (s : state jsval) :
  let cfg := destructure arg in
  let password := (generatePassword arg s).1 in
  1 ≤ enabledCount cfg →
  Config.length cfg < enabledCount cfg →
  strlen password = enabledCount cfg ∧
  ∃ required,
    Forall2 (λ c p, c ∈ p) required (enabledPools cfg) ∧
    password ≡ₚ required.
Proof.
  intros cfg password Hcount Hlen.
  destruct (generatePassword_spec arg s) as [_ Hspec].
  destruct (Hspec (enabledCount_pos _ Hcount))
    as (required & fill & Hreq & _ & Hfill & Hperm).
  fold cfg in Hreq, Hfill. fold password in Hperm.
  assert (fill = []) as ->.
  { apply length_zero_iff_nil. rewrite Hfill. lia. }
  rewrite (right_id_L [] (++)) in Hperm.
  split.
  - rewrite (strlen_perm _ _ Hperm). unfold strlen, enabledCount.
    by rewrite (Forall2_length _ _ _ Hreq).
  - by exists required.
Qed.

(** C10. A field left out of the options behaves as length 14 or as an
    enabled class, and so does a missing options object; [generatePassword({})]
    is 14 characters long and holds a character of each of the four
    classes. *)
Theorem generatePassword_defaults (s : state jsval) :
  (∀ o, generatePassword (Some o) s
        = generatePassword (Some (with_defaults o)) s) ∧
  generatePassword None s = generatePassword (Some Options.empty) s ∧
  destructure (Some Options.empty) = Config.mk 14 true true true true ∧
  let password := (generatePassword (Some Options.empty) s).1 in
  strlen password = 14 ∧
  (∃ c, c ∈ password ∧ c ∈ CHAR_POOLS.uppercase) ∧
  (∃ c, c ∈ password ∧ c ∈ CHAR_POOLS.lowercase) ∧
  (∃ c, c ∈ password ∧ c ∈ CHAR_POOLS.numbers) ∧
  (∃ c, c ∈ password ∧ c ∈ CHAR_POOLS.symbols).
Proof.
  split_and!; [by intros [[] [] [] [] []]|done|done|].
  destruct (generatePassword_shape (Some Options.empty) s) as (Hlen & Hcover & _);
    [done|].
  cbn zeta. split_and!; [done|apply Hcover..].
  all: unfold enabledPools; cbn; set_solver.
Qed.

Lemma generatePassword_length_and_classes_witness :
  (1 ≤ enabledCount (destructure sample_long) ∧
   enabledCount (destructure sample_long) ≤ Config.length (destructure sample_long)) ∧
  strlen (generatePassword sample_long sample_state).1 = 8.
Proof.
  assert (1 ≤ enabledCount (destructure sample_long)) as H1 by (vm_compute; discriminate).
  assert (enabledCount (destructure sample_long)
          ≤ Config.length (destructure sample_long)) as H2 by (vm_compute; discriminate).
  split; [by split|].
  exact (proj1 (generatePassword_length_and_classes sample_long sample_state H1 H2)).
Defined.

Lemma generatePassword_no_class_witness :
  (generatePassword sample_none sample_state).1 = [].
Proof.
  apply (generatePassword_no_class sample_none sample_state); reflexivity.
Defined.

Lemma generatePassword_short_length_witness :
  (1 ≤ enabledCount (destructure sample_short) ∧
   Config.length (destructure sample_short) < enabledCount (destructure sample_short)) ∧
  strlen (generatePassword sample_short sample_state).1 = 3.
Proof.
  assert (1 ≤ enabledCount (destructure sample_short)) as H1 by (vm_compute; discriminate).
  assert (Config.length (destructure sample_short)
          < enabledCount (destructure sample_short)) as H2 by (vm_compute; reflexivity).
  split; [by split|].
  exact (proj1 (generatePassword_short_length sample_short sample_state H1 H2)).
Defined.

(** ** Strength scorer *)

Lemma ascii_units_complete (c : codeunit) : (c < 128)%N → c ∈ ascii_units.
Proof.
  intros Hc. unfold ascii_units. apply list_elem_of_fmap.
  exists (N.to_nat c). split; [by rewrite N2Nat.id|].
  apply elem_of_seq. lia.
Qed.

(** A class given by ranges of ASCII characters and a string of ASCII
    characters have the same members when they agree below 128. *)
Lemma class_members (class : codeunit → bool) (chars : jsstring) :
  forallb (λ c, bool_decide (class c = bool_decide (c ∈ chars))) ascii_units
    = true →
  forallb (λ c, c <? 128)%N chars = true →
  (∀ c, (128 ≤ c)%N → class c = false) →
  ∀ c, class c = true ↔ c ∈ chars.
Proof.
  intros Hlow Hchars Hhigh c.
  rewrite forallb_forall in Hlow, Hchars.
  destruct (N.lt_ge_cases c 128) as [Hc|Hc].
  - specialize (Hlow c). rewrite <- list_elem_of_In in Hlow.
    specialize (Hlow (ascii_units_complete c Hc)).
    apply bool_decide_eq_true in Hlow. rewrite Hlow.
    apply bool_decide_eq_true.
  - rewrite (Hhigh c Hc). split; [done|].
    intros Hin%list_elem_of_In%Hchars. apply N.ltb_lt in Hin. lia.
Qed.

Lemma range_high lo hi c :
  (code hi < 128)%N → (128 ≤ c)%N → range lo hi c = false.
Proof.
  intros Hhi Hc. unfold range. apply andb_false_iff. right.
  apply N.leb_gt. lia.
Qed.

Lemma re_lower_spec c : re_lower c = true ↔ c ∈ CHAR_POOLS.lowercase.
Proof.
  apply class_members; [by vm_compute|by vm_compute|].
  intros c' Hc'. by apply range_high.
Qed.

Lemma re_upper_spec c : re_upper c = true ↔ c ∈ CHAR_POOLS.uppercase.
Proof.
  apply class_members; [by vm_compute|by vm_compute|].
  intros c' Hc'. by apply range_high.
Qed.

Lemma re_digit_spec c : re_digit c = true ↔ c ∈ CHAR_POOLS.numbers.
Proof.
  apply class_members; [by vm_compute|by vm_compute|].
  intros c' Hc'. by apply range_high.
Qed.

(** A test for a class is a search for a member of the class. *)
Lemma regex_test_Exists (class : codeunit → bool) (P : codeunit → Prop)
    `{!∀ c, Decision (P c)} (s : jsstring) :
  (∀ c, class c = true ↔ P c) →
  regex_test class s = bool_decide (Exists P s).
Proof.
  intros Hclass. unfold regex_test.
  destruct (existsb class s) eqn:Hex; symmetry.
  - apply bool_decide_eq_true. apply existsb_exists in Hex as (c & Hc & Hcl).
    apply Exists_exists. exists c. split; [by apply list_elem_of_In|].
    by apply Hclass.
  - apply bool_decide_eq_false. intros (c & Hc & HP)%Exists_exists.
    apply not_true_iff_false in Hex. apply Hex, existsb_exists.
    exists c. split; [by apply list_elem_of_In|]. by apply Hclass.
Qed.

Lemma re_other_spec c :
  re_other c = true ↔
  c ∉ CHAR_POOLS.uppercase ++ CHAR_POOLS.lowercase ++ CHAR_POOLS.numbers.
Proof.
  unfold re_other. rewrite negb_true_iff, !orb_false_iff.
  rewrite !elem_of_app.
  pose proof (re_lower_spec c) as HL. pose proof (re_upper_spec c) as HU.
  pose proof (re_digit_spec c) as HD.
  unfold re_lower, re_upper, re_digit in *.
  destruct (range "a" "z" c), (range "A" "Z" c), (range "0" "9" c);
    intuition congruence.
Qed.

(** The running score is the sum of the buckets. *)
Lemma bucketScore_sum password :
  bucketScore password =
    (if 8 <=? strlen password then 15 else 0) +
    (if 12 <=? strlen password then 15 else 0) +
    (if 16 <=? strlen password then 10 else 0) +
    (if 24 <=? strlen password then 10 else 0) +
    (if regex_test re_lower password then 15 else 0) +
    (if regex_test re_upper password then 15 else 0) +
    (if regex_test re_digit password then 10 else 0) +
    (if regex_test re_other password then 10 else 0).
Proof. unfold bucketScore. repeat case_match; lia. Qed.

Lemma leb_bool_decide (a b : Z) : (a <=? b) = bool_decide (a ≤ b).
Proof.
  destruct (Z.leb_spec0 a b);
    [by rewrite bool_decide_eq_true_2|by rewrite bool_decide_eq_false_2].
Qed.

Lemma bucketScore_table password : bucketScore password = table_score password.
Proof.
  rewrite bucketScore_sum. unfold table_score.
  rewrite (regex_test_Exists re_lower _ _ re_lower_spec).
  rewrite (regex_test_Exists re_upper _ _ re_upper_spec).
  rewrite (regex_test_Exists re_digit _ _ re_digit_spec).
  rewrite (regex_test_Exists re_other _ _ re_other_spec).
  by rewrite !leb_bool_decide.
Qed.

Lemma calculateStrength_score password :
  password ≠ [] → score (calculateStrength password) = bucketScore password.
Proof.
  intros Hne. destruct password as [|c password]; [done|].
  unfold calculateStrength. by destruct (grade _).
Qed.

(** C4. The score of a non-empty password is the sum of the eight buckets of
    the table, each one evaluated on its own; ["Aa1!Aa1!Aa1!"] scores 80 and
    is Strong, ["abcdefghijklmnop"] scores 55 and is Medium. *)
Theorem calculateStrength_table password :
  password ≠ [] →
  score (calculateStrength password) = table_score password ∧
  (score (calculateStrength (units "Aa1!Aa1!Aa1!")) = 80 ∧
   label (calculateStrength (units "Aa1!Aa1!Aa1!")) = "Strong"%string) ∧
  (score (calculateStrength (units "abcdefghijklmnop")) = 55 ∧
   label (calculateStrength (units "abcdefghijklmnop")) = "Medium"%string).
Proof.
  intros Hne. split; [|done].
  by rewrite calculateStrength_score, bucketScore_table.
Qed.

(** Eight lowercase letters: one length bucket and the lowercase bucket. *)
Lemma calculateStrength_table_witness :
  units "aaaaaaaa" ≠ [] ∧
  score (calculateStrength (units "aaaaaaaa")) = table_score (units "aaaaaaaa") ∧
  table_score (units "aaaaaaaa") = 30.
Proof.
  assert (units "aaaaaaaa" ≠ []) as Hne by (vm_compute; discriminate).
  split_and!; [exact Hne| |reflexivity].
  exact (proj1 (calculateStrength_table (units "aaaaaaaa") Hne)).
Defined.

(** C5. The empty string is answered at once with score 0, label None and
    the gray color; the buckets and thresholds, which would call a score of
    0 Weak and red, play no part in that answer. *)
Theorem calculateStrength_empty :
  calculateStrength (units "") = mkStrength 0 "None" "#9ca3af" ∧
  grade (bucketScore (units "")) = ("Weak", "#dc2626")%string.
Proof. done. Qed.

(** C6, as the code has it. For a non-empty password the label and the
    color follow from the score: 75 and above is Strong and green, from 50
    up to 74 is Medium and amber, and below 50 is Weak and red. *)
Theorem calculateStrength_grade password :
  password ≠ [] →
  let r := calculateStrength password in
  (75 ≤ score r → label r = "Strong"%string ∧ color r = "#16a34a"%string) ∧
  (50 ≤ score r < 75 →
   label r = "Medium"%string ∧ color r = "#ca8a04"%string) ∧
  (score r < 50 → label r = "Weak"%string ∧ color r = "#dc2626"%string).
Proof.
  intros Hne. destruct password as [|c password]; [done|].
  unfold calculateStrength, grade.
  set (n := bucketScore _).
  destruct (Z.leb_spec 75 n); [|destruct (Z.leb_spec 50 n)]; cbn;
    split_and!; intros; first [done|lia].
Qed.

Lemma calculateStrength_grade_witness :
  units "aaaaaaaa" ≠ [] ∧
  (score (calculateStrength (units "aaaaaaaa")) < 50 →
   label (calculateStrength (units "aaaaaaaa")) = "Weak"%string ∧
   color (calculateStrength (units "aaaaaaaa")) = "#dc2626"%string).
Proof.
  assert (units "aaaaaaaa" ≠ []) as Hne by (vm_compute; discriminate).
  split; [exact Hne|].
  exact (proj2 (proj2 (calculateStrength_grade (units "aaaaaaaa") Hne))).
Defined.

(** C6, as the specification words it, fails: sixteen lowercase letters are a
    non-empty password with a score below 75, and its label is Medium, not
    Weak. *)
Lemma calculateStrength_grade_counterexample :
  units "abcdefghijklmnop" ≠ [] ∧
  score (calculateStrength (units "abcdefghijklmnop")) < 75 ∧
  label (calculateStrength (units "abcdefghijklmnop")) = "Medium"%string ∧
  label (calculateStrength (units "abcdefghijklmnop")) ≠ "Weak"%string ∧
  color (calculateStrength (units "abcdefghijklmnop")) ≠ "#dc2626"%string.
Proof. by vm_compute. Qed.

(** Every code unit is in one of the four classes of the scorer. *)
Lemma class_cover (c : codeunit) :
  re_lower c || re_upper c || re_digit c || re_other c = true.
Proof.
  unfold re_lower, re_upper, re_digit, re_other.
  by destruct (range "a" "z" c), (range "A" "Z" c), (range "0" "9" c).
Qed.

Lemma regex_cover (password : jsstring) :
  password ≠ [] →
  regex_test re_lower password || regex_test re_upper password ||
  regex_test re_digit password || regex_test re_other password = true.
Proof.
  intros Hne. destruct password as [|c password]; [done|].
  unfold regex_test. cbn [existsb].
  pose proof (class_cover c) as Hc.
  destruct (re_lower c), (re_upper c), (re_digit c), (re_other c);
    try done; cbn; by rewrite ?orb_true_r.
Qed.

(** C9. A non-empty password scores at least 10: each of its characters is
    a lowercase letter, an uppercase letter, a digit or something else, so
    one of the four variety buckets is earned. *)
Theorem calculateStrength_at_least_10 password :
  password ≠ [] →
  10 ≤ score (calculateStrength password) ∧
  ∀ c : codeunit, re_lower c || re_upper c || re_digit c || re_other c = true.
Proof.
  intros Hne. split; [|apply class_cover].
  rewrite calculateStrength_score, bucketScore_sum by done.
  pose proof (regex_cover password Hne) as Hcover.
  destruct (regex_test re_lower password), (regex_test re_upper password),
    (regex_test re_digit password), (regex_test re_other password);
    try done; repeat case_match; lia.
Qed.

(** A single character that is no letter and no digit earns exactly 10. *)
Lemma calculateStrength_at_least_10_witness :
  units "!" ≠ [] ∧
  10 ≤ score (calculateStrength (units "!")) ∧
  score (calculateStrength (units "!")) = 10.
Proof.
  assert (units "!" ≠ []) as Hne by (vm_compute; discriminate).
  split_and!; [exact Hne| |reflexivity].
  exact (proj1 (calculateStrength_at_least_10 (units "!") Hne)).
Defined.


(** * Further properties *)

(** ** Strength scorer *)

Lemma calculateStrength_nil : calculateStrength [] = mkStrength 0 "None" "#9ca3af".
Proof. done. Qed.

Lemma calculateStrength_cons c password :
  calculateStrength (c :: password) =
    mkStrength (bucketScore (c :: password))
               (grade (bucketScore (c :: password))).1
               (grade (bucketScore (c :: password))).2.
Proof. unfold calculateStrength. by destruct (grade _). Qed.

Lemma bucketScore_range password :
  0 ≤ bucketScore password ≤ 100 ∧ bucketScore password mod 5 = 0.
Proof. rewrite bucketScore_sum. repeat case_match; (split; [lia|done]). Qed.

Lemma calculateStrength_score_nonneg password :
  0 ≤ score (calculateStrength password).
Proof.
  destruct password as [|c password]; [done|].
  rewrite calculateStrength_cons. cbn [score]. apply bucketScore_range.
Qed.

(** X1. The score of every password is between 0 and 100, in steps of 5. *)
Theorem calculateStrength_score_range (password : jsstring) :
  0 ≤ score (calculateStrength password) ≤ 100 ∧
  score (calculateStrength password) mod 5 = 0.
Proof.
  destruct password as [|c password]; [done|].
  rewrite calculateStrength_cons. cbn [score]. apply bucketScore_range.
Qed.

(** X2. The score is 100 exactly for the passwords of 24 characters or more
    that hold a lowercase letter, an uppercase letter, a digit and a
    character that is neither. *)
Theorem calculateStrength_full_score (password : jsstring) :
  score (calculateStrength password) = 100 ↔
  24 ≤ strlen password ∧
  Exists (λ c, c ∈ CHAR_POOLS.lowercase) password ∧
  Exists (λ c, c ∈ CHAR_POOLS.uppercase) password ∧
  Exists (λ c, c ∈ CHAR_POOLS.numbers) password ∧
  Exists (λ c, c ∉ CHAR_POOLS.uppercase ++ CHAR_POOLS.lowercase
                     ++ CHAR_POOLS.numbers) password.
Proof.
  destruct password as [|c password].
  { split; [done|]. intros [Hlen _]. unfold strlen in Hlen. cbn in Hlen. lia. }
  rewrite calculateStrength_score, bucketScore_table by done.
  unfold table_score. set (n := strlen (c :: password)).
  repeat case_bool_decide; split; intros Hfull; first [lia | tauto | idtac].
  all: destruct Hfull as (? & ? & ? & ? & ?); try tauto; lia.
Qed.

Lemma regex_test_true class (s : jsstring) :
  regex_test class s = true ↔ ∃ c, c ∈ s ∧ class c = true.
Proof.
  unfold regex_test. rewrite existsb_exists.
  by setoid_rewrite list_elem_of_In.
Qed.

Lemma regex_test_mono class (p q : jsstring) :
  (∀ c, c ∈ p → c ∈ q) → regex_test class p = true → regex_test class q = true.
Proof.
  intros Hsub. rewrite !regex_test_true. intros (c & Hc & Hclass).
  exists c. auto.
Qed.

Lemma bucket_le (a b : bool) (points : Z) :
  0 ≤ points → (a = true → b = true) →
  (if a then points else 0) ≤ (if b then points else 0).
Proof. intros Hp Hab. destruct a, b; try lia; by specialize (Hab eq_refl). Qed.

(** More characters never score less. *)
Lemma bucketScore_mono (p q : jsstring) : p ⊆+ q → bucketScore p ≤ bucketScore q.
Proof.
  intros Hsub. rewrite !bucketScore_sum.
  assert (strlen p ≤ strlen q) as Hlen.
  { unfold strlen. apply inj_le, submseteq_length, Hsub. }
  assert (∀ c, c ∈ p → c ∈ q) as Hin.
  { intros c Hc. by apply (elem_of_submseteq p q c). }
  repeat apply Z.add_le_mono; apply bucket_le; try lia;
    first [ rewrite !Z.leb_le; lia | by apply regex_test_mono ].
Qed.

(** X3. A password that holds all the characters of another one, as often
    and in any order (the other one with characters appended or inserted,
    for instance), scores at least as much. *)
Theorem calculateStrength_monotone (p q : jsstring) :
  p ⊆+ q → score (calculateStrength p) ≤ score (calculateStrength q).
Proof.
  intros Hsub. destruct p as [|c p].
  { apply calculateStrength_score_nonneg. }
  destruct q as [|d q].
  { by apply submseteq_nil_r in Hsub. }
  rewrite !calculateStrength_cons. cbn [score]. by apply bucketScore_mono.
Qed.

Lemma calculateStrength_monotone_witness :
  units "pass" ⊆+ units "pass1234" ∧
  score (calculateStrength (units "pass")) = 15 ∧
  score (calculateStrength (units "pass1234")) = 40 ∧
  score (calculateStrength (units "pass"))
    ≤ score (calculateStrength (units "pass1234")).
Proof.
  assert (units "pass" ⊆+ units "pass1234") as Hsub.
  { apply sublist_submseteq. vm_compute. by repeat constructor. }
  split_and!; [exact Hsub|reflexivity|reflexivity|].
  exact (calculateStrength_monotone _ _ Hsub).
Defined.

(** X4. The strength depends on the characters of the password and not on
    their order: rearranging a password changes neither score, label nor
    color. *)
Theorem calculateStrength_permutation (p q : jsstring) :
  p ≡ₚ q → calculateStrength p = calculateStrength q.
Proof.
  intros Hperm. destruct p as [|c p], q as [|d q].
  - done.
  - by apply Permutation_nil_l in Hperm.
  - by apply Permutation_nil_r in Hperm.
  - rewrite !calculateStrength_cons.
    assert (bucketScore (c :: p) = bucketScore (d :: q)) as ->; [|done].
    apply Z.le_antisymm; apply bucketScore_mono; by rewrite Hperm.
Qed.

Lemma calculateStrength_permutation_witness :
  units "ab1" ≡ₚ units "1ba" ∧
  calculateStrength (units "ab1") = calculateStrength (units "1ba").
Proof.
  assert (units "ab1" ≡ₚ units "1ba") as Hperm.
  { apply (bool_decide_unpack _). by vm_compute. }
  split; [exact Hperm|]. exact (calculateStrength_permutation _ _ Hperm).
Defined.

(** X5. The label None and the gray color are the answer for the empty
    string and for no other password. *)
Theorem calculateStrength_none_iff_empty (password : jsstring) :
  (label (calculateStrength password) = "None"%string ↔ password = []) ∧
  (color (calculateStrength password) = "#9ca3af"%string ↔ password = []).
Proof.
  destruct password as [|c password]; [done|].
  rewrite calculateStrength_cons. cbn [label color]. unfold grade.
  by repeat case_match.
Qed.

(** ** The pools of the generator and the classes of the scorer *)

Lemma Forall_pool (P : codeunit → Prop) `{!∀ c, Decision (P c)}
    (pool : jsstring) :
  bool_decide (Forall P pool) = true → ∀ c, c ∈ pool → P c.
Proof. intros HP%bool_decide_eq_true. by apply Forall_forall. Qed.

Lemma uppercase_classes c :
  c ∈ CHAR_POOLS.uppercase → classes c = (false, true, false, false).
Proof.
  revert c. apply (Forall_pool (λ c, classes c = (false, true, false, false))).
  by vm_compute.
Qed.

Lemma lowercase_classes c :
  c ∈ CHAR_POOLS.lowercase → classes c = (true, false, false, false).
Proof.
  revert c. apply (Forall_pool (λ c, classes c = (true, false, false, false))).
  by vm_compute.
Qed.

Lemma numbers_classes c :
  c ∈ CHAR_POOLS.numbers → classes c = (false, false, true, false).
Proof.
  revert c. apply (Forall_pool (λ c, classes c = (false, false, true, false))).
  by vm_compute.
Qed.

Lemma symbols_classes c :
  c ∈ CHAR_POOLS.symbols → classes c = (false, false, false, true).
Proof.
  revert c. apply (Forall_pool (λ c, classes c = (false, false, false, true))).
  by vm_compute.
Qed.

(** X6. The generator and the scorer agree on the classes: a character of
    the uppercase pool passes the uppercase test of the scorer and no other
    test, and likewise for the lowercase letters, the digits and the symbols
    (every symbol counts as a character outside letters and digits); the 88
    characters of the four pools are all different. *)
Theorem pools_match_classes :
  (∀ c, c ∈ CHAR_POOLS.uppercase → classes c = (false, true, false, false)) ∧
  (∀ c, c ∈ CHAR_POOLS.lowercase → classes c = (true, false, false, false)) ∧
  (∀ c, c ∈ CHAR_POOLS.numbers → classes c = (false, false, true, false)) ∧
  (∀ c, c ∈ CHAR_POOLS.symbols → classes c = (false, false, false, true)) ∧
  NoDup (CHAR_POOLS.uppercase ++ CHAR_POOLS.lowercase ++
         CHAR_POOLS.numbers ++ CHAR_POOLS.symbols) ∧
  strlen (CHAR_POOLS.uppercase ++ CHAR_POOLS.lowercase ++
          CHAR_POOLS.numbers ++ CHAR_POOLS.symbols) = 88.
Proof.
  split_and!.
  - apply uppercase_classes.
  - apply lowercase_classes.
  - apply numbers_classes.
  - apply symbols_classes.
  - apply (bool_decide_unpack _). by vm_compute.
  - done.
Qed.

(** ** Scoring what the generator returns *)

Lemma enabledPools_elem cfg p :
  p ∈ enabledPools cfg ↔
  (Config.uppercase cfg = true ∧ p = CHAR_POOLS.uppercase) ∨
  (Config.lowercase cfg = true ∧ p = CHAR_POOLS.lowercase) ∨
  (Config.numbers cfg = true ∧ p = CHAR_POOLS.numbers) ∨
  (Config.symbols cfg = true ∧ p = CHAR_POOLS.symbols).
Proof.
  unfold enabledPools. rewrite !elem_of_app.
  destruct (Config.uppercase cfg), (Config.lowercase cfg),
    (Config.numbers cfg), (Config.symbols cfg);
    rewrite ?list_elem_of_singleton, ?elem_of_nil; intuition congruence.
Qed.

(** The tests of a character of an enabled pool tell which class is
    enabled. *)
Lemma enabled_classes cfg p c :
  p ∈ enabledPools cfg → c ∈ p →
  (re_lower c = true → Config.lowercase cfg = true) ∧
  (re_upper c = true → Config.uppercase cfg = true) ∧
  (re_digit c = true → Config.numbers cfg = true) ∧
  (re_other c = true → Config.symbols cfg = true).
Proof.
  intros Hp Hc. apply enabledPools_elem in Hp.
  destruct Hp as [[Hf ->]|[[Hf ->]|[[Hf ->]|[Hf ->]]]].
  - apply uppercase_classes in Hc. injection Hc as H1 H2 H3 H4.
    rewrite H1, H2, H3, H4. by split_and!.
  - apply lowercase_classes in Hc. injection Hc as H1 H2 H3 H4.
    rewrite H1, H2, H3, H4. by split_and!.
  - apply numbers_classes in Hc. injection Hc as H1 H2 H3 H4.
    rewrite H1, H2, H3, H4. by split_and!.
  - apply symbols_classes in Hc. injection Hc as H1 H2 H3 H4.
    rewrite H1, H2, H3, H4. by split_and!.
Qed.

(** On a generated password each test of the scorer succeeds exactly when
    its class is enabled. *)
Lemma generated_tests arg (s : state jsval) :
  let cfg := destructure arg in
  let password := (generatePassword arg s).1 in
  enabledPools cfg ≠ [] →
  regex_test re_lower password = Config.lowercase cfg ∧
  regex_test re_upper password = Config.uppercase cfg ∧
  regex_test re_digit password = Config.numbers cfg ∧
  regex_test re_other password = Config.symbols cfg.
Proof.
  intros cfg password Hsome.
  destruct (generatePassword_shape arg s Hsome) as (_ & Hcover & Hin).
  fold cfg password in Hcover, Hin.
  assert (∀ class (flag : bool) pool,
    (flag = true → pool ∈ enabledPools cfg) →
    (∀ c, c ∈ pool → class c = true) →
    (∀ p c, p ∈ enabledPools cfg → c ∈ p → class c = true → flag = true) →
    regex_test class password = flag) as Htest.
  { intros class flag pool Hon Hpool Hoff. destruct flag.
    - destruct (Hcover pool (Hon eq_refl)) as (c & Hc & Hcp).
      apply regex_test_true. exists c. auto.
    - apply not_true_is_false. intros (c & Hc & Hclass)%regex_test_true.
      destruct (Hin c Hc) as (p & Hp & Hcp).
      by specialize (Hoff p c Hp Hcp Hclass). }
  split_and!.
  - apply (Htest _ _ CHAR_POOLS.lowercase).
    + intros Hf. apply enabledPools_elem. auto.
    + intros c Hc%lowercase_classes. by injection Hc.
    + intros p c Hp Hc. apply (enabled_classes cfg p c Hp Hc).
  - apply (Htest _ _ CHAR_POOLS.uppercase).
    + intros Hf. apply enabledPools_elem. auto.
    + intros c Hc%uppercase_classes. by injection Hc.
    + intros p c Hp Hc. apply (enabled_classes cfg p c Hp Hc).
  - apply (Htest _ _ CHAR_POOLS.numbers).
    + intros Hf. apply enabledPools_elem. auto.
    + intros c Hc%numbers_classes. by injection Hc.
    + intros p c Hp Hc. apply (enabled_classes cfg p c Hp Hc).
  - apply (Htest _ _ CHAR_POOLS.symbols).
    + intros Hf. apply enabledPools_elem. auto 6.
    + intros c Hc%symbols_classes. by injection Hc.
    + intros p c Hp Hc. apply (enabled_classes cfg p c Hp Hc).
Qed.

Lemma generated_strlen arg (s : state jsval) :
  enabledPools (destructure arg) ≠ [] →
  strlen (generatePassword arg s).1
    = Z.max (Config.length (destructure arg)) (enabledCount (destructure arg)).
Proof.
  intros Hsome.
  destruct (generatePassword_shape arg s Hsome) as (Hlen & _).
  cbn zeta in Hlen. lia.
Qed.

Lemma generated_nonempty arg (s : state jsval) :
  enabledPools (destructure arg) ≠ [] → (generatePassword arg s).1 ≠ [].
Proof.
  intros Hsome Hnil. pose proof (generated_strlen arg s Hsome) as Hlen.
  rewrite Hnil in Hlen.
  assert (1 ≤ enabledCount (destructure arg)) as Hcount.
  { unfold enabledCount. destruct (enabledPools _); [done|]. cbn [length]. lia. }
  unfold strlen in Hlen. cbn [length] in Hlen. lia.
Qed.

(** The score of a generated password does not depend on the random words. *)
Lemma generated_score arg (s : state jsval) :
  let cfg := destructure arg in
  enabledPools cfg ≠ [] →
  score (calculateStrength (generatePassword arg s).1)
    = lengthPoints (Z.max (Config.length cfg) (enabledCount cfg))
      + classPoints cfg.
Proof.
  intros cfg Hsome.
  rewrite calculateStrength_score by by apply generated_nonempty.
  rewrite bucketScore_sum, generated_strlen by done.
  destruct (generated_tests arg s Hsome) as (-> & -> & -> & ->).
  fold cfg. unfold lengthPoints, classPoints. lia.
Qed.

(** X7. With a class enabled, the score of the generated password is fixed
    by the configuration alone, whatever the random words: the points of the
    length buckets for [max(length, count)] plus 15 for lowercase, 15 for
    uppercase, 10 for digits and 10 for symbols when enabled. *)
Theorem generatePassword_score arg (s : state jsval) :
  let cfg := destructure arg in
  1 ≤ enabledCount cfg →
  score (calculateStrength (generatePassword arg s).1)
    = lengthPoints (Z.max (Config.length cfg) (enabledCount cfg))
      + classPoints cfg.
Proof. intros cfg Hcount. by apply generated_score, enabledCount_pos. Qed.

Lemma generatePassword_score_witness :
  1 ≤ enabledCount (destructure sample_long) ∧
  score (calculateStrength (generatePassword sample_long sample_state).1) = 50.
Proof.
  assert (1 ≤ enabledCount (destructure sample_long)) as H1
    by (vm_compute; discriminate).
  split; [exact H1|].
  exact (generatePassword_score sample_long sample_state H1).
Defined.

(** X8. Called without options or with [{}], the generator returns a
    password that the scorer rates 80, Strong and green, whatever the random
    words. *)
Theorem generatePassword_default_strong (s : state jsval) :
  calculateStrength (generatePassword None s).1
    = mkStrength 80 "Strong" "#16a34a" ∧
  calculateStrength (generatePassword (Some Options.empty) s).1
    = mkStrength 80 "Strong" "#16a34a".
Proof.
  assert (calculateStrength (generatePassword None s).1
          = mkStrength 80 "Strong" "#16a34a") as Hdefault; [|by split].
  pose proof (generated_score None s) as Hscore.
  pose proof (generated_nonempty None s) as Hne.
  destruct (generatePassword None s).1 as [|c password]; [by destruct Hne|].
  rewrite calculateStrength_cons in *. cbn [score] in Hscore.
  rewrite Hscore by done. done.
Qed.

(** X9. The generator returns the empty string exactly when no class is
    enabled, whatever the requested length. *)
Theorem generatePassword_empty_iff arg (s : state jsval) :
  (generatePassword arg s).1 = [] ↔
  Config.uppercase (destructure arg) = false ∧
  Config.lowercase (destructure arg) = false ∧
  Config.numbers (destructure arg) = false ∧
  Config.symbols (destructure arg) = false.
Proof.
  split.
  - intros Hnil.
    destruct (decide (enabledPools (destructure arg) = [])) as [He|He].
    + unfold enabledPools in He.
      by destruct (Config.uppercase _), (Config.lowercase _),
        (Config.numbers _), (Config.symbols _).
    + by destruct (generated_nonempty arg s He).
  - intros (HU & HL & HN & HS). apply (generatePassword_spec arg s).
    unfold enabledPools. by rewrite HU, HL, HN, HS.
Qed.

(** ** More on the shuffle *)

(** The loop rule with the loop variable in the invariant. *)
Lemma for_down_inv_idx {A} (I : nat → state A → Prop) (body : Z → M A unit) n s :
  I n s →
  (∀ i s', (i < n)%nat → I (S i) s' → I i (body (Z.of_nat (S i)) s').2) →
  I 0%nat (for_down n body s).2.
Proof.
  revert s. induction n as [|n IH]; intros s Hs Hbody; [done|].
  cbn [for_down]. rewrite run_bind. apply IH.
  - apply Hbody; [lia|done].
  - intros i s' Hi. apply Hbody. lia.
Qed.

Section shuffle_more.
Context {A : Type} `{!HasUndefined A}.
Implicit Types (xs ys : list A) (s : state A).

(** One round, in full: which cells it exchanges and what it draws. *)
Lemma shuffle_round_exact (shuffled : loc) i s ys :
  arrays s !! shuffled = Some ys →
  let j := Z.rem (uint32 (entropy s 0%nat)) (i + 1) in
  (j ← getSecureRandomInt (i + 1);
   a ← array_get shuffled j;
   b ← array_get shuffled i;
   array_set shuffled i a;;
   array_set shuffled j b) s
  = ((), State (<[shuffled := store j (elem ys i) (store i (elem ys j) ys)]>
                 (arrays s))
               (λ n, entropy s (S n))).
Proof.
  intros Hys j.
  rewrite run_bind, getSecureRandomInt_run. cbn [fst snd]. fold j.
  unfold array_get, array_read, array_set. rewrite !run_bind. cbn.
  rewrite Hys. cbn. f_equal. f_equal.
  apply map_eq. intros l. rewrite !lookup_alter, lookup_insert.
  repeat case_decide; simplify_eq; by rewrite ?Hys.
Qed.

(** X10. The shuffle touches no array that exists when it is called: it adds
    one array to the store, the result, and every other location holds what
    it held before. *)
Theorem secureShuffleArray_frame (array : loc) xs s :
  arrays s !! array = Some xs →
  let shuffled := (secureShuffleArray array s).1 in
  let s' := (secureShuffleArray array s).2 in
  (shuffled ∉ dom (arrays s)) ∧
  dom (arrays s') = dom (arrays s) ∪ {[shuffled]} ∧
  ∀ l, l ≠ shuffled → arrays s' !! l = arrays s !! l.
Proof.
  intros Hxs. cbn zeta.
  destruct (shuffle_spec array xs s Hxs) as (ys & s' & Hperm & -> & Hs').
  cbn [fst snd]. rewrite Hs'. split_and!.
  - apply is_fresh.
  - rewrite dom_insert_L. apply (comm_L (∪)).
  - intros l Hl. by rewrite lookup_insert_ne.
Qed.
End shuffle_more.

Lemma secureShuffleArray_frame_witness :
  ((secureShuffleArray 5%nat shuffle_sample).1 ∉ dom (arrays shuffle_sample)) ∧
  dom (arrays (secureShuffleArray 5%nat shuffle_sample).2)
    = dom (arrays shuffle_sample) ∪ {[(secureShuffleArray 5%nat shuffle_sample).1]}.
Proof.
  assert (arrays shuffle_sample !! 5%nat
          = Some [cell 97%N; cell 98%N; cell 99%N]) as Hxs by reflexivity.
  destruct (secureShuffleArray_frame 5%nat _ shuffle_sample Hxs)
    as (Hfresh & Hdom & _).
  split; [exact Hfresh|exact Hdom].
Defined.

Section shuffle_runs.
Context {A : Type} `{!HasUndefined A}.
Implicit Types (xs ys : list A) (s : state A).

(** The shuffle is the loop on a copy of the input at a new location. *)
Lemma shuffle_run (array : loc) xs s :
  arrays s !! array = Some xs →
  secureShuffleArray array s =
    (fresh (dom (arrays s)),
     (for_down (Z.to_nat (Z.of_nat (length xs) - 1))
        (swap_round (fresh (dom (arrays s))))
        (State (<[fresh (dom (arrays s)) := xs]> (arrays s)) (entropy s))).2).
Proof.
  intros Hxs. unfold secureShuffleArray.
  rewrite run_bind, array_read_run. cbn [fst snd]. rewrite Hxs.
  cbn [default]; unfold id. rewrite run_bind, array_new_run. cbn [fst snd].
  rewrite run_bind, array_length_run. cbn [fst snd arrays].
  rewrite lookup_insert_eq. cbn [default]; unfold id.
  by rewrite run_bind, run_ret.
Qed.

Lemma swap_round_run (shuffled : loc) i s ys :
  arrays s !! shuffled = Some ys →
  let j := Z.rem (uint32 (entropy s 0%nat)) (i + 1) in
  swap_round shuffled i s
  = ((), State (<[shuffled := store j (elem ys i) (store i (elem ys j) ys)]>
                 (arrays s))
               (λ n, entropy s (S n))).
Proof. apply shuffle_round_exact. Qed.

Lemma swap_round_entropy (shuffled : loc) i s k :
  entropy (swap_round shuffled i s).2 k = entropy s (S k).
Proof. done. Qed.

(** The loop draws one word per round. *)
Lemma shuffle_loop_entropy (shuffled : loc) n s k :
  entropy (for_down n (swap_round shuffled) s).2 k = entropy s (k + n)%nat.
Proof.
  revert s k. induction n as [|n IH]; intros s k.
  - cbn. by rewrite Nat.add_0_r.
  - cbn [for_down]. rewrite run_bind, IH, swap_round_entropy.
    f_equal. lia.
Qed.

(** X11. The shuffle of an array of [n] elements draws [n - 1] random words
    (none for an empty array); an array of fewer than two elements is copied
    as it is. *)
Theorem secureShuffleArray_draws (array : loc) xs s :
  arrays s !! array = Some xs →
  let shuffled := (secureShuffleArray array s).1 in
  let s' := (secureShuffleArray array s).2 in
  (∀ k, entropy s' k = entropy s (k + (length xs - 1))%nat) ∧
  ((length xs ≤ 1)%nat → arrays s' !! shuffled = Some xs).
Proof.
  intros Hxs. cbn zeta. split.
  - intros k. rewrite (shuffle_run array xs s Hxs). cbn [snd].
    rewrite shuffle_loop_entropy. cbn [entropy]. f_equal. lia.
  - intros Hlen.
    destruct (shuffle_spec array xs s Hxs) as (ys & s' & Hperm & -> & Hs').
    cbn [fst snd]. rewrite Hs', lookup_insert_eq. f_equal.
    destruct xs as [|x [|]]; [|by apply Permutation_singleton_r|cbn in Hlen; lia].
    by apply Permutation_nil_r.
Qed.
End shuffle_runs.

Lemma secureShuffleArray_draws_witness :
  entropy (secureShuffleArray 5%nat shuffle_sample).2 0%nat
    = entropy shuffle_sample 2%nat ∧
  entropy (secureShuffleArray 5%nat shuffle_sample).2 0%nat = 3.
Proof.
  assert (arrays shuffle_sample !! 5%nat
          = Some [cell 97%N; cell 98%N; cell 99%N]) as Hxs by reflexivity.
  split; [|reflexivity].
  exact (proj1 (secureShuffleArray_draws 5%nat _ shuffle_sample Hxs) 0%nat).
Defined.

Section shuffle_reach.
Context {A : Type} `{!HasUndefined A}.
Implicit Types (xs ys pre suf target : list A).

(** A round that draws [j] moves the element at [j] to the end of the part
    that is still to be shuffled. *)
Lemma swap_last pre0 z suf (j : nat) y :
  (pre0 ++ [z]) !! j = Some y →
  ∃ pre',
    store (Z.of_nat j) (elem ((pre0 ++ [z]) ++ suf) (Z.of_nat (length pre0)))
      (store (Z.of_nat (length pre0))
         (elem ((pre0 ++ [z]) ++ suf) (Z.of_nat j)) ((pre0 ++ [z]) ++ suf))
    = pre' ++ y :: suf ∧
    length pre' = length pre0 ∧
    pre' ++ [y] ≡ₚ pre0 ++ [z].
Proof.
  intros Hj.
  assert (j < length (pre0 ++ [z]))%nat as Hjlen by by eapply lookup_lt_Some.
  rewrite length_app in Hjlen. cbn in Hjlen.
  rewrite (elem_lookup _ (length pre0) z).
  2:{ rewrite <- (assoc_L (++)). by apply list_lookup_middle. }
  rewrite (elem_lookup _ j y) by (by apply lookup_app_l_Some).
  rewrite (store_insert _ (length pre0)) by (rewrite !length_app; cbn; lia).
  rewrite store_insert by (rewrite length_insert, !length_app; cbn; lia).
  rewrite <- (assoc_L (++)). cbn [app].
  rewrite (insert_app_r_alt pre0) by lia.
  rewrite Nat.sub_diag. cbn [insert list_insert].
  destruct (decide (j = length pre0)) as [->|Hne].
  - rewrite list_lookup_middle in Hj by done. simplify_eq.
    exists pre0. split_and!; [|done|done].
    rewrite insert_app_r_alt by lia. by rewrite Nat.sub_diag.
  - rewrite lookup_app_l in Hj by lia.
    exists (<[j := z]> pre0). split_and!.
    + rewrite insert_app_l by lia. done.
    + by rewrite length_insert.
    + rewrite <- !Permutation_cons_append. by apply insert_cons_perm.
Qed.

(** The loop can turn the part that is still to be shuffled into any
    rearrangement of it. *)
Lemma shuffle_loop_reaches (shuffled : loc) n :
  ∀ pre suf target (h : gmap nat (list A)),
    length pre = S n →
    target ≡ₚ pre →
    Z.of_nat (S n) ≤ 2 ^ 32 →
    h !! shuffled = Some (pre ++ suf) →
    ∃ e, arrays (for_down n (swap_round shuffled) (State h e)).2
         = <[shuffled := target ++ suf]> h.
Proof.
  induction n as [|m IH]; intros pre suf target h Hlen Hperm Hbound Hh.
  - exists (λ _, 0). cbn.
    destruct pre as [|x [|]]; simplify_eq/=.
    apply Permutation_singleton_r in Hperm as ->. by rewrite insert_id.
  - destruct pre as [|z pre0 _] using rev_ind; [done|].
    destruct target as [|y t0 _] using rev_ind.
    { apply Permutation_nil_l in Hperm. by destruct pre0. }
    rewrite length_app in Hlen. cbn in Hlen.
    assert (length pre0 = S m) as Hlen0 by lia.
    assert (y ∈ pre0 ++ [z]) as Hy.
    { rewrite <- Hperm. apply elem_of_app. right. by apply list_elem_of_singleton. }
    apply list_elem_of_lookup in Hy as [j Hj].
    assert (j < length (pre0 ++ [z]))%nat as Hjlen by by eapply lookup_lt_Some.
    rewrite length_app in Hjlen. cbn in Hjlen.
    destruct (swap_last pre0 z suf j y Hj) as (pre' & Hswap & Hlen' & Hperm').
    destruct (IH pre' (y :: suf) t0 (<[shuffled := pre' ++ y :: suf]> h))
      as [e' He'].
    + lia.
    + apply (Permutation_app_inv_r [y]). by rewrite Hperm, Hperm'.
    + lia.
    + apply lookup_insert_eq.
    + exists (entropy_cons (Z.of_nat j) e').
      cbn [for_down]. rewrite run_bind.
      rewrite (swap_round_run shuffled _ _ ((pre0 ++ [z]) ++ suf)) by done.
      cbn [fst snd entropy arrays entropy_cons].
      rewrite uint32_id by lia.
      rewrite Z.rem_small by lia.
      rewrite <- Hlen0, Hswap.
      change (λ n : nat, e' n) with e'. rewrite He', insert_insert_eq.
      by rewrite <- (assoc_L (++)).
Qed.

(** X12. Every rearrangement of the input can come out of the shuffle: for
    an array of at most 2^32 elements and any permutation of it there are
    random words for which the shuffle returns that permutation. *)
Theorem secureShuffleArray_reaches (array : loc) xs ys
    (h : gmap nat (list A)) :
  h !! array = Some xs →
  ys ≡ₚ xs →
  Z.of_nat (length xs) ≤ 2 ^ 32 →
  ∃ e, arrays (secureShuffleArray array (State h e)).2
         !! (secureShuffleArray array (State h e)).1 = Some ys.
Proof.
  intros Hxs Hperm Hbound.
  destruct xs as [|x xs].
  - apply Permutation_nil_r in Hperm as ->. exists (λ _, 0).
    rewrite (shuffle_run array [] (State h (λ _, 0))) by done.
    cbn. apply lookup_insert_eq.
  - destruct (shuffle_loop_reaches (fresh (dom h)) (length xs) (x :: xs) [] ys
                (<[fresh (dom h) := x :: xs]> h)) as [e He].
    + done.
    + done.
    + cbn [length] in Hbound. lia.
    + rewrite (right_id_L [] (++)). apply lookup_insert_eq.
    + exists e. rewrite (shuffle_run array (x :: xs) (State h e)) by done.
      cbn [fst snd arrays entropy length].
      replace (Z.to_nat (Z.of_nat (S (length xs)) - 1)) with (length xs) by lia.
      rewrite He, (right_id_L [] (++)). apply lookup_insert_eq.
Qed.
End shuffle_reach.

Lemma secureShuffleArray_reaches_witness :
  ∃ e, arrays (secureShuffleArray 5%nat (State (arrays shuffle_sample) e)).2
         !! (secureShuffleArray 5%nat (State (arrays shuffle_sample) e)).1
       = Some [cell 99%N; cell 98%N; cell 97%N].
Proof.
  apply (secureShuffleArray_reaches 5%nat [cell 97%N; cell 98%N; cell 99%N]).
  - reflexivity.
  - symmetry. apply (Permutation_rev [cell 97%N; cell 98%N; cell 99%N]).
  - vm_compute. discriminate.
Defined.

(** ** The distribution of the random integers *)

Lemma draw_rem max word : 0 ≤ word < 2 ^ 32 → draw max word = Z.rem word max.
Proof.
  intros Hw. unfold draw. rewrite getSecureRandomInt_run. cbn [fst entropy].
  by rewrite uint32_id.
Qed.

Lemma div_mod_succ (n max : Z) :
  0 ≤ n → 0 < max →
  ((n + 1) / max = n / max ∧ (n + 1) mod max = n mod max + 1
   ∧ n mod max + 1 < max) ∨
  ((n + 1) / max = n / max + 1 ∧ (n + 1) mod max = 0
   ∧ n mod max = max - 1).
Proof.
  intros Hn Hmax.
  pose proof (Z.div_mod n max) as Hdm. pose proof (Z.mod_pos_bound n max) as Hb.
  destruct (decide (n mod max + 1 < max)) as [Hlt|Hge]; [left|right].
  - assert ((n + 1) / max = n / max) as Hq.
    { symmetry. apply (Z.div_unique_pos _ _ _ (n mod max + 1)); lia. }
    split_and!; [done| |done].
    symmetry. apply (Z.mod_unique_pos _ _ (n / max)); lia.
  - assert ((n + 1) / max = n / max + 1) as Hq.
    { symmetry. apply (Z.div_unique_pos _ _ _ 0); lia. }
    split_and!; [done| |lia].
    symmetry. apply (Z.mod_unique_pos _ _ (n / max + 1)); lia.
Qed.

(** How many of the first [n] words give the residue [r]. *)
Lemma count_words (max r : Z) (n : nat) :
  0 < max → 0 ≤ r < max → Z.of_nat n ≤ 2 ^ 32 →
  Z.of_nat (length (filter (λ word, draw max word = r) (seqZ 0 (Z.of_nat n))))
  = Z.of_nat n / max + (if r <? Z.of_nat n mod max then 1 else 0).
Proof.
  intros Hmax Hr. induction n as [|n IH]; intros Hn.
  - change (Z.of_nat 0) with 0. rewrite seqZ_nil, filter_nil by lia.
    rewrite Zdiv_0_l, Zmod_0_l. cbn [length].
    destruct (Z.ltb_spec r 0); lia.
  - rewrite seqZ_S, filter_app, length_app, Nat2Z.inj_add, IH by lia.
    rewrite Z.add_0_l, filter_cons, filter_nil.
    rewrite draw_rem by lia. rewrite Z.rem_mod_nonneg by lia.
    replace (Z.of_nat (S n)) with (Z.of_nat n + 1) by lia.
    destruct (div_mod_succ (Z.of_nat n) max) as [(-> & -> & Hm)|(-> & -> & Hm)];
      [lia|lia| |].
    + case_decide; repeat case_match; cbn [length];
        rewrite ?Z.ltb_lt, ?Z.ltb_ge in *; lia.
    + case_decide; repeat case_match; cbn [length];
        rewrite ?Z.ltb_lt, ?Z.ltb_ge in *; lia.
Qed.

(** X13. The bias of the reduction modulo [max]: of the 2^32 words that the
    source can deliver, [2^32 / max] give a residue [r], and one more when
    [r] is below [2^32 mod max]. Two residues differ by at most one word, and
    they are equally likely when [max] divides 2^32. *)
Theorem getSecureRandomInt_bias (max r : Z) :
  0 < max →
  0 ≤ r < max →
  Z.of_nat (length (words_for max r))
  = 2 ^ 32 / max + (if r <? 2 ^ 32 mod max then 1 else 0).
Proof.
  intros Hmax Hr. unfold words_for.
  pose proof (count_words max r (Z.to_nat (2 ^ 32)) Hmax Hr) as Hcount.
  rewrite Z2Nat.id in Hcount by lia. apply Hcount. lia.
Qed.

(** For the 26 letters: the residues 0 to 21 have one word more than the
    residues 22 to 25. *)
Lemma getSecureRandomInt_bias_witness :
  Z.of_nat (length (words_for 26 0)) = 165191050 ∧
  Z.of_nat (length (words_for 26 25)) = 165191049.
Proof.
  split.
  - apply (getSecureRandomInt_bias 26 0); lia.
  - apply (getSecureRandomInt_bias 26 25); lia.
Defined.

(** ** The application *)

Lemma destructure_options config : destructure (App.options config) = config.
Proof. by destruct config. Qed.

Lemma step_length config a :
  8 ≤ Config.length config ≤ 32 → 8 ≤ Config.length (App.step config a) ≤ 32.
Proof.
  intros Hlen. destruct a as [| |value|k]; cbn.
  - lia.
  - lia.
  - destruct value as [|z| |]; cbn; lia.
  - by destruct k.
Qed.

Lemma foldl_step_length actions config :
  8 ≤ Config.length config ≤ 32 →
  8 ≤ Config.length (foldl App.step config actions) ≤ 32.
Proof.
  revert config. induction actions as [|a actions IH]; intros config Hlen;
    [done|].
  cbn [foldl]. by apply IH, step_length.
Qed.

Lemma after_length actions : 8 ≤ Config.length (App.after actions) ≤ 32.
Proof. apply foldl_step_length. cbn. lia. Qed.

(** X14. Whatever the user does (minus, plus, typing any length, toggling
    classes, in any order), the length of the configuration stays between 8
    and 32. *)
Theorem App_length_in_range (actions : list App.action) :
  8 ≤ Config.length (App.after actions) ≤ 32.
Proof. apply after_length. Qed.

(** X15. The minus and plus buttons are disabled exactly when pressing them
    would change nothing: minus leaves the configuration as it is when the
    length is at most 8 and otherwise lowers the length by one; plus leaves
    it as it is when the length is at least 32 and otherwise raises it by
    one. *)
Theorem App_length_buttons (actions : list App.action) :
  let config := App.after actions in
  (App.updateLength (-1) config = config ↔ Config.length config <= 8) ∧
  (8 < Config.length config →
   Config.length (App.updateLength (-1) config) = Config.length config - 1) ∧
  (App.updateLength 1 config = config ↔ 32 <= Config.length config) ∧
  (Config.length config < 32 →
   Config.length (App.updateLength 1 config) = Config.length config + 1).
Proof.
  cbn zeta. pose proof (after_length actions) as Hlen.
  destruct (App.after actions) as [len u l n sy].
  unfold App.updateLength.
  cbn [Config.length Config.uppercase Config.lowercase Config.numbers
       Config.symbols] in *.
  split_and!.
  - split; [intros [= Heq]; lia|intros Hle; f_equal; lia].
  - lia.
  - split; [intros [= Heq]; lia|intros Hle; f_equal; lia].
  - lia.
Qed.

(** X16. A value typed into the length field that does not parse ([NaN])
    changes nothing. An integer from 8 to 32 becomes the length as it is, a
    smaller one (or minus infinity) gives 8, a larger one (or infinity)
    gives 32; the classes stay as they are. *)
Theorem App_handleLengthInput (value : App.number) (prev : Config.t) :
  App.handleLengthInput App.NaN prev = prev ∧
  (∀ z, 8 ≤ z ≤ 32 →
        Config.length (App.handleLengthInput (App.Int z) prev) = z) ∧
  (∀ z, z < 8 → Config.length (App.handleLengthInput (App.Int z) prev) = 8) ∧
  (∀ z, 32 < z →
        Config.length (App.handleLengthInput (App.Int z) prev) = 32) ∧
  Config.length (App.handleLengthInput App.Infinity prev) = 32 ∧
  Config.length (App.handleLengthInput App.NegInfinity prev) = 8 ∧
  enabledPools (App.handleLengthInput value prev) = enabledPools prev.
Proof.
  split_and!; try done.
  - intros z Hz. unfold App.handleLengthInput, App.min32, App.max8.
    cbn [Config.length]. lia.
  - intros z Hz. unfold App.handleLengthInput, App.min32, App.max8.
    cbn [Config.length]. lia.
  - intros z Hz. unfold App.handleLengthInput, App.min32, App.max8.
    cbn [Config.length]. lia.
  - by destruct value.
Qed.

(** X17. Pressing a toggle twice restores the configuration, and a toggle
    never changes the length. *)
Theorem App_toggle_twice (k : App.key) (config : Config.t) :
  App.toggleOption k (App.toggleOption k config) = config ∧
  Config.length (App.toggleOption k config) = Config.length config.
Proof.
  destruct config as [len u l n sy], k; cbn; by rewrite negb_involutive.
Qed.

(** X18. [regenerate] shows what the generator and the scorer return: its
    shortcut for a configuration without classes gives the same password
    (the empty one) and the same strength that calling
    [generatePassword(config)] and [calculateStrength] would give. *)
Theorem App_regenerate_agrees (config : Config.t) (s : state jsval) :
  (App.regenerate config s).1
  = ((generatePassword (App.options config) s).1,
     calculateStrength (generatePassword (App.options config) s).1).
Proof.
  unfold App.regenerate. destruct (App.hasValidConfig config) eqn:Hvalid; cbn [negb].
  - by rewrite run_bind, run_ret.
  - rewrite run_ret. cbn [fst].
    assert ((generatePassword (App.options config) s).1 = []) as ->; [|done].
    apply (generatePassword_spec (App.options config) s).
    rewrite destructure_options. unfold App.hasValidConfig in Hvalid.
    unfold enabledPools.
    by destruct (Config.uppercase config), (Config.lowercase config),
      (Config.numbers config), (Config.symbols config).
Qed.

Lemma hasValidConfig_enabled config :
  App.hasValidConfig config = true → enabledPools config ≠ [].
Proof.
  unfold App.hasValidConfig, enabledPools.
  by destruct (Config.uppercase config), (Config.lowercase config),
    (Config.numbers config), (Config.symbols config).
Qed.

Lemma enabledCount_le_4 config : enabledCount config ≤ 4.
Proof.
  unfold enabledCount, enabledPools.
  destruct (Config.uppercase config), (Config.lowercase config),
    (Config.numbers config), (Config.symbols config); cbn; lia.
Qed.

(** X19. In the application, with at least one class enabled, the password
    that [regenerate] shows has exactly the length of the configuration,
    holds a character of every enabled class, and its score is the points of
    the length buckets for that length plus the points of the enabled
    classes: at least 25, whatever the random words. *)
Theorem App_regenerate_valid (actions : list App.action) (s : state jsval) :
  let config := App.after actions in
  App.hasValidConfig config = true →
  let password := (App.regenerate config s).1.1 in
  let strength := (App.regenerate config s).1.2 in
  strlen password = Config.length config ∧
  (∀ p, p ∈ enabledPools config → ∃ c, c ∈ password ∧ c ∈ p) ∧
  score strength = lengthPoints (Config.length config) + classPoints config ∧
  25 ≤ score strength.
Proof.
  intros config Hvalid. cbn zeta.
  pose proof (after_length actions) as Hlen. fold config in Hlen.
  pose proof (hasValidConfig_enabled config Hvalid) as Hsome.
  pose proof (enabledCount_le_4 config) as Hcount.
  unfold App.regenerate. rewrite Hvalid. cbn [negb].
  rewrite run_bind, run_ret. cbn [fst snd].
  rewrite <- (destructure_options config) in Hsome.
  pose proof (generatePassword_shape _ s Hsome) as (Hstr & Hcover & _).
  pose proof (generated_score _ s Hsome) as Hscore.
  cbn zeta in Hstr, Hcover, Hscore.
  rewrite destructure_options in Hstr, Hcover, Hscore.
  assert (Z.max (Config.length config) (enabledCount config)
          = Config.length config) as Hmax by lia.
  rewrite Hmax in Hscore.
  split_and!; [lia|done|done|].
  rewrite Hscore. unfold lengthPoints, classPoints.
  unfold App.hasValidConfig in Hvalid.
  destruct (Config.uppercase config), (Config.lowercase config),
    (Config.numbers config), (Config.symbols config);
    try done; repeat case_match; rewrite ?Z.leb_gt in *; lia.
Qed.

Lemma App_regenerate_valid_witness :
  App.hasValidConfig (App.after [App.Toggle App.symbols; App.Decrease]) = true ∧
  strlen (App.regenerate (App.after [App.Toggle App.symbols; App.Decrease])
            sample_state).1.1 = 13.
Proof.
  assert (App.hasValidConfig
            (App.after [App.Toggle App.symbols; App.Decrease]) = true)
    as Hvalid by reflexivity.
  split; [exact Hvalid|].
  exact (proj1 (App_regenerate_valid _ sample_state Hvalid)).
Defined.

(** ** The random words that the generator draws *)

Lemma class_block_entropy enabled chars (requiredChars : loc) pool
    (s : state jsval) k :
  entropy (class_block enabled chars requiredChars pool s).2 k
  = entropy s ((if enabled then 1 else 0) + k)%nat.
Proof. by destruct enabled. Qed.

Lemma fill_round_entropy (passwordChars : loc) pool (s : state jsval) k :
  entropy
    ((randomIndex ← getSecureRandomInt (strlen pool);
      array_push passwordChars (char_at pool randomIndex)) s).2 k
  = entropy s (S k).
Proof. done. Qed.

(** The statements after the early return draw a word for each remaining
    character and then the words of the shuffle. *)
Lemma fill_and_shuffle_entropy (requiredChars : loc) pool len
    (s : state jsval) req k :
  pool ≠ [] →
  arrays s !! requiredChars = Some (cell <$> req) →
  let remaining := Z.to_nat (Z.max 0 (len - Z.of_nat (length req))) in
  entropy (fill_and_shuffle requiredChars pool len s).2 k
  = entropy s (k + (remaining + (length req + remaining - 1)))%nat.
Proof.
  intros Hne Hreq remaining. unfold fill_and_shuffle.
  rewrite run_bind, array_length_run. cbn [fst snd]. rewrite Hreq.
  cbn [default]; unfold id. rewrite length_fmap. cbn zeta. fold remaining.
  rewrite run_bind, array_read_run. cbn [fst snd]. rewrite Hreq.
  cbn [default]; unfold id. rewrite run_bind, array_new_run. cbn [fst snd].
  set (passwordChars := fresh (dom (arrays s))).
  set (s1 := State _ _).
  rewrite run_bind.
  match goal with |- context [for_up 0 remaining ?body s1] =>
    destruct (for_up_inv
      (λ n s', (∃ fill, length fill = n ∧
          arrays s' = <[passwordChars := cell <$> (req ++ fill)]> (arrays s)) ∧
         ∀ j, entropy s' j = entropy s (n + j)%nat)
      body 0 remaining s1) as ((fill & Hlen & Hs2) & He2)
  end.
  - split; [|done]. exists []. split; [done|]. by rewrite (right_id_L [] (++)).
  - intros n s' _ ((fill & Hlen & Hs') & He').
    destruct (fill_round passwordChars pool s' (req ++ fill) Hne)
      as (c & Hc & Hpush).
    { rewrite Hs'. apply lookup_insert_eq. }
    split.
    + exists (fill ++ [c]). split; [rewrite length_app; cbn; lia|].
      cbn beta. rewrite Hpush, Hs', insert_insert_eq.
      by rewrite (assoc_L (++)).
    + intros j. cbn beta. rewrite fill_round_entropy, He'. f_equal. lia.
  - set (s2 := (for_up _ _ _ _).2) in *.
    rewrite run_bind.
    rewrite (shuffle_run passwordChars (cell <$> (req ++ fill)) s2)
      by (rewrite Hs2; apply lookup_insert_eq).
    cbn [fst snd]. rewrite run_bind, array_read_run, run_ret. cbn [fst snd].
    rewrite shuffle_loop_entropy. cbn [entropy]. rewrite He2.
    f_equal. rewrite length_fmap, length_app, Hlen. lia.
Qed.

(** X20. The generator draws [2 n - 1] random words for a password of [n]
    characters (one for each character and [n - 1] for the shuffle), and none
    when no class is enabled and the password is empty. *)
Theorem generatePassword_draws arg (s : state jsval) (k : nat) :
  let n := length (generatePassword arg s).1 in
  entropy (generatePassword arg s).2 k = entropy s (k + (2 * n - 1))%nat.
Proof.
  cbn zeta.
  destruct (decide (enabledPools (destructure arg) = [])) as [Hnil|Hsome].
  - rewrite (proj1 (generatePassword_spec arg s) Hnil). cbn [length].
    rewrite Nat.add_0_r.
    rewrite generatePassword_unfold. unfold enabledPools in Hnil.
    destruct (Config.uppercase (destructure arg)),
      (Config.lowercase (destructure arg)),
      (Config.numbers (destructure arg)),
      (Config.symbols (destructure arg)); done.
  - pose proof (generated_strlen arg s Hsome) as Hstr.
    unfold strlen in Hstr.
    assert (length (generatePassword arg s).1
            = Z.to_nat (Z.max (Config.length (destructure arg))
                          (enabledCount (destructure arg)))) as -> by lia.
    clear Hstr. rewrite generatePassword_unfold.
    destruct pools_nonempty as (HU & HL & HN & HS).
    set (cfg := destructure arg) in *.
    rewrite run_bind, array_new_run. cbn [fst snd].
    set (requiredChars := fresh (dom (arrays s))). set (s0 := State _ _).
    assert (arrays s0 !! requiredChars = Some (cell <$> [])) as H0
      by apply lookup_insert_eq.
    destruct (class_block_spec (Config.uppercase cfg) _ _ [] _ _ HU H0)
      as (p1 & s1 & Hrun1 & Hs1 & Hp1).
    pose proof (class_block_entropy (Config.uppercase cfg)
                  CHAR_POOLS.uppercase requiredChars [] s0) as He1.
    rewrite Hrun1 in He1. cbn [snd] in He1.
    rewrite run_bind, Hrun1. cbn [fst snd].
    assert (arrays s1 !! requiredChars = Some (cell <$> ([] ++ p1))) as H1
      by (rewrite Hs1; apply lookup_insert_eq).
    rewrite run_bind.
    match goal with |- context [class_block _ _ _ ?pool s1] =>
      destruct (class_block_spec (Config.lowercase cfg) _ _ pool _ _ HL H1)
        as (p2 & s2 & Hrun2 & Hs2 & Hp2);
      pose proof (class_block_entropy (Config.lowercase cfg)
                    CHAR_POOLS.lowercase requiredChars pool s1) as He2
    end.
    rewrite Hrun2 in He2. cbn [snd] in He2.
    rewrite Hrun2. cbn [fst snd].
    assert (arrays s2 !! requiredChars = Some (cell <$> (([] ++ p1) ++ p2)))
      as H2 by (rewrite Hs2; apply lookup_insert_eq).
    rewrite run_bind.
    match goal with |- context [class_block _ _ _ ?pool s2] =>
      destruct (class_block_spec (Config.numbers cfg) _ _ pool _ _ HN H2)
        as (p3 & s3 & Hrun3 & Hs3 & Hp3);
      pose proof (class_block_entropy (Config.numbers cfg)
                    CHAR_POOLS.numbers requiredChars pool s2) as He3
    end.
    rewrite Hrun3 in He3. cbn [snd] in He3.
    rewrite Hrun3. cbn [fst snd].
    assert (arrays s3 !! requiredChars
            = Some (cell <$> ((([] ++ p1) ++ p2) ++ p3)))
      as H3 by (rewrite Hs3; apply lookup_insert_eq).
    rewrite run_bind.
    match goal with |- context [class_block _ _ _ ?pool s3] =>
      destruct (class_block_spec (Config.symbols cfg) _ _ pool _ _ HS H3)
        as (p4 & s4 & Hrun4 & Hs4 & Hp4);
      pose proof (class_block_entropy (Config.symbols cfg)
                    CHAR_POOLS.symbols requiredChars pool s3) as He4
    end.
    rewrite Hrun4 in He4. cbn [snd] in He4.
    rewrite Hrun4. cbn [fst snd].
    assert (arrays s4 !! requiredChars
            = Some (cell <$> (((([] ++ p1) ++ p2) ++ p3) ++ p4)))
      as H4 by (rewrite Hs4; apply lookup_insert_eq).
    set (req := (((([] ++ p1) ++ p2) ++ p3) ++ p4)) in *.
    set (pool := (_ ++ _)).
    assert (pool = concat (enabledPools cfg)) as Hpool.
    { subst pool. unfold enabledPools.
      by rewrite !concat_app, !(assoc_L (++)). }
    assert (pool ≠ []) as Hne.
    { rewrite Hpool. intros Hnil. by apply Hsome, enabledPools_concat_nil. }
    rewrite bool_decide_eq_false_2 by done.
    rewrite (fill_and_shuffle_entropy requiredChars pool (Config.length cfg)
               s4 req k Hne H4).
    rewrite He4, He3, He2, He1. cbn [entropy s0].
    assert (length req = length (enabledPools cfg)) as Hreq.
    { subst req. unfold enabledPools. rewrite <- !(assoc_L (++)). cbn [app].
      rewrite !length_app.
      by rewrite (Forall2_length _ _ _ Hp1), (Forall2_length _ _ _ Hp2),
        (Forall2_length _ _ _ Hp3), (Forall2_length _ _ _ Hp4). }
    rewrite Hreq. unfold enabledCount.
    assert (length (enabledPools cfg)
            = ((if Config.uppercase cfg then 1 else 0) +
               ((if Config.lowercase cfg then 1 else 0) +
                ((if Config.numbers cfg then 1 else 0) +
                 (if Config.symbols cfg then 1 else 0))))%nat) as Hcount.
    { unfold enabledPools.
      by destruct (Config.uppercase cfg), (Config.lowercase cfg),
        (Config.numbers cfg), (Config.symbols cfg). }
    f_equal. lia.
Qed.
